(** * WebsiteDeadlinkScraper: a shallow embedding of the traversal engine

    Source: [src/website_deadlink_scraper.py], class [WebsiteDeadlinkScraper].

    The scraper object is a record; every method that mutates [self] is a
    function from scraper to scraper.  The outside world (the network, the
    wall clock, the [urllib.parse] helpers) is a record of oracles, [World].
    The worker threads of one batch are run one after the other, in the
    order in which they were submitted. *)

From stdpp Require Import gmap strings list.
From Stdlib Require Import ZArith Lia Ascii.

Local Open Scope Z_scope.

(** ** Data model *)

(** A row of [deadlinks.csv] and an element of [self.deadlinks]:
    [{'source': url, 'deadlink': full_url}]. *)
Record deadlink_record := Deadlink { source : string; deadlink : string }.

(** An element of [to_visit]: the tuple [(url, depth)]. *)
Definition entry : Type := string * Z.

(** A row of [history_df] / [scan_history.csv]: [(URL, LastScanned)], the
    timestamp counted in microseconds. *)
Definition history_row : Type := string * Z.

(** What [requests.get(url, timeout=10)] followed by
    [BeautifulSoup(...).find_all('a', href=True)] gives: the [href] values
    of the anchors in document order, or an exception. *)
Inductive get_outcome :=
| GetOk (hrefs : list string)
| GetRaises.

(** What [requests.head(url, allow_redirects=True, timeout=5)] gives: a
    response with a status code, a [requests.RequestException] (connection
    errors and timeouts are subclasses of it), or another exception. *)
Inductive head_outcome :=
| HeadStatus (status_code : Z)
| HeadRequestException
| HeadOtherException.

(** The result of a call that may raise. *)
Inductive outcome (A : Type) :=
| Returns (a : A)
| Raises.
Arguments Returns {A} a.
Arguments Raises {A}.

(** The oracles.  The [nat] argument of the network and the clock is the
    number of observations of the outside world made so far, so that a site
    may change while it is crawled.  [urlparse] and [urljoin] are taken not
    to raise on the URLs of the pages. *)
Record World := {
  netloc : string → string;             (* urlparse(url).netloc *)
  urljoin : string → string → string;   (* urljoin(base, href) *)
  http_get : nat → string → get_outcome;
  http_head : nat → string → head_outcome;
  clock : nat → Z                       (* datetime.now() *)
}.

(** The external effects of a crawl, recorded in the order they happen. *)
Inductive event :=
| EvGet (url : string) (depth : Z)           (* requests.get in scrape_page *)
| EvHead (url : string)                      (* requests.head in check_link *)
| EvSaveResult (r : deadlink_record)         (* save_result *)
| EvUpdateHistory (url : string) (t : Z).    (* update_history *)

(** The scraper object, the two files it owns on the drive, and the record
    of its effects ([trace], most recent event first). *)
Record scraper := Scraper {
  base_url : string;
  max_pages : Z;
  max_depth : Z;
  visited_urls : gset string;
  deadlinks : list deadlink_record;
  current_depth : Z;
  history_df : list history_row;
  results_csv : list deadlink_record;
  history_csv : list history_row;
  tick : nat;
  trace : list event
}.

(** The contents of the drive folder before the scraper is built: [None] for
    a file that does not exist yet. *)
Record drive := {
  stored_results : option (list deadlink_record);
  stored_history : option (list history_row)
}.

(** The status line of [update_progress]:
    [Scanned: .. pages, Found: .. deadlinks, Max Depth: .., message]. *)
Record progress := {
  scanned : nat;
  found : nat;
  max_depth_reached : Z;
  activity : string
}.

(** ** Field updates *)

Definition observe (ev : list event) (s : scraper) : scraper :=
  Scraper (base_url s) (max_pages s) (max_depth s) (visited_urls s)
          (deadlinks s) (current_depth s) (history_df s)
          (results_csv s) (history_csv s) (S (tick s)) (ev ++ trace s).

Definition mark_visited (url : string) (depth : Z) (s : scraper) : scraper :=
  Scraper (base_url s) (max_pages s) (max_depth s) ({[url]} ∪ visited_urls s)
          (deadlinks s) (Z.max (current_depth s) depth) (history_df s)
          (results_csv s) (history_csv s) (tick s) (trace s).

Definition append_deadlink (r : deadlink_record) (s : scraper) : scraper :=
  Scraper (base_url s) (max_pages s) (max_depth s) (visited_urls s)
          (deadlinks s ++ [r]) (current_depth s) (history_df s)
          (results_csv s) (history_csv s) (tick s) (trace s).

Definition set_history (df : list history_row) (s : scraper) : scraper :=
  Scraper (base_url s) (max_pages s) (max_depth s) (visited_urls s)
          (deadlinks s) (current_depth s) df
          (results_csv s) (history_csv s) (tick s) (trace s).

(** ** String helpers *)

(** [s.endswith(suffix)]. *)
Fixpoint endswith (s suffix : string) : bool :=
  String.eqb s suffix ||
  match s with
  | EmptyString => false
  | String _ s' => endswith s' suffix
  end.

(** ** The methods *)

Section Methods.
Context (w : World).

(** [__init__] with [setup]: [create_folder_and_files] makes both files
    when they are missing, [load_history] and [load_existing_results] read
    them.  [url] is the value [format_and_verify_url] returned. *)
Definition create_folder_and_files (d : drive) : drive :=
  {| stored_results := Some (default [] (stored_results d));
     stored_history := Some (default [] (stored_history d)) |}.

Definition init (url : string) (d : drive) : scraper :=
  let d' := create_folder_and_files d in
  {| base_url := url;
     max_pages := 10000;
     max_depth := 20;
     visited_urls := ∅;
     deadlinks := default [] (stored_results d');    (* load_existing_results *)
     current_depth := 0;
     history_df := default [] (stored_history d');   (* load_history *)
     results_csv := default [] (stored_results d');
     history_csv := default [] (stored_history d');
     tick := 0%nat;
     trace := [] |}.

(** [is_valid_url], lines 101-104. *)
Definition is_valid_url (s : scraper) (url : string) : bool :=
  String.eqb (netloc w url) (netloc w (base_url s))
  || endswith (netloc w url) (netloc w (base_url s)).

(** [check_link], lines 106-111: [true] is "dead". *)
Definition check_link (s : scraper) (url : string) : scraper * outcome bool :=
  let s' := observe [EvHead url] s in
  match http_head w (tick s) url with
  | HeadStatus status_code => (s', Returns (negb (status_code =? 200)))
  | HeadRequestException => (s', Returns true)
  | HeadOtherException => (s', Raises)
  end.

(** [timedelta(days=14)] in microseconds. *)
Definition timedelta_days (d : Z) : Z := d * 86400 * 1000000.

(** [url in self.history_df['URL'].values]. *)
Definition in_history (url : string) (df : list history_row) : bool :=
  existsb (λ r, String.eqb (fst r) url) df.

(** [self.history_df.loc[self.history_df['URL'] == url, 'LastScanned'].iloc[0]]:
    the timestamp of the first row for [url]. *)
Definition last_scanned (url : string) (df : list history_row) : option Z :=
  snd <$> find (λ r, String.eqb (fst r) url) df.

(** Lines 120-124 of [scrape_page]: [true] when the page is skipped.  The
    clock is read only when the history has a row for the page. *)
Definition rescan_gate (s : scraper) (url : string) (force_scan : bool)
  : scraper * bool :=
  if negb force_scan && in_history url (history_df s) then
    match last_scanned url (history_df s) with
    | Some t => (observe [] s, clock w (tick s) - t <? timedelta_days 14)
    | None => (s, false)
    end
  else (s, false).

(** [save_result], lines 171-174: one row appended to [deadlinks.csv]. *)
Definition save_result (r : deadlink_record) (s : scraper) : scraper :=
  Scraper (base_url s) (max_pages s) (max_depth s) (visited_urls s)
          (deadlinks s) (current_depth s) (history_df s)
          (results_csv s ++ [r]) (history_csv s) (tick s)
          (EvSaveResult r :: trace s).

(** [save_history], lines 185-186: [scan_history.csv] is overwritten. *)
Definition save_history (s : scraper) : scraper :=
  Scraper (base_url s) (max_pages s) (max_depth s) (visited_urls s)
          (deadlinks s) (current_depth s) (history_df s)
          (results_csv s) (history_df s) (tick s) (trace s).

(** [update_history], lines 176-183. *)
Definition update_history (s : scraper) (url : string) : scraper :=
  let now := clock w (tick s) in
  let s1 := observe [EvUpdateHistory url now] s in
  let df :=
    if in_history url (history_df s)
    then map (λ r : history_row, if String.eqb (fst r) url then (fst r, now) else r)
             (history_df s)
    else history_df s ++ [(url, now)] in
  save_history (set_history df s1).

(** The body of the [for link in soup.find_all('a', href=True)] loop,
    lines 133-140, over the anchors that are left. *)
Fixpoint process_links (s : scraper) (url : string) (depth : Z)
    (hrefs : list string) (internal_links : list entry)
  : scraper * outcome (list entry) :=
  match hrefs with
  | [] => (s, Returns internal_links)
  | href :: rest =>
      let full_url := urljoin w url href in
      if is_valid_url s full_url then
        match check_link s full_url with
        | (s1, Raises) => (s1, Raises)
        | (s1, Returns true) =>
            let r := Deadlink url full_url in
            process_links (save_result r (append_deadlink r s1))
                          url depth rest internal_links
        | (s1, Returns false) =>
            if decide (full_url ∈ visited_urls s1)
            then process_links s1 url depth rest internal_links
            else process_links s1 url depth rest
                               (internal_links ++ [(full_url, depth + 1)])
        end
      else process_links s url depth rest internal_links
  end.

(** [scrape_page], lines 113-148. *)
Definition scrape_page (s : scraper) (url : string) (depth : Z)
    (force_scan : bool) : scraper * list entry :=
  if bool_decide (url ∈ visited_urls s) || (max_depth s <? depth) then (s, [])
  else
    let s1 := mark_visited url depth s in
    match rescan_gate s1 url force_scan with
    | (s2, true) => (s2, [])
    | (s2, false) =>
        let s3 := observe [EvGet url depth] s2 in
        match http_get w (tick s2) url with
        | GetRaises => (s3, [])                       (* except Exception *)
        | GetOk hrefs =>
            match process_links s3 url depth hrefs [] with
            | (s4, Raises) => (s4, [])                (* except Exception *)
            | (s4, Returns internal_links) =>
                (update_history s4 url, internal_links)
            end
        end
    end.

(** [update_progress], lines 188-191: the status line that is written. *)
Definition update_progress (s : scraper) (message : string) : progress :=
  {| scanned := size (visited_urls s);
     found := length (deadlinks s);
     max_depth_reached := current_depth s;
     activity := message |}.

(** ** [start_scraping], lines 150-169

    The state of the loop: the scraper, the entries of the current batch
    that have not run yet, and [to_visit]. *)
Record crawl := Crawl {
  self : scraper;
  batch : list entry;
  to_visit : list entry
}.

Definition start_scraping (s : scraper) : crawl :=
  Crawl s [] [(base_url s, 0)].

(** Lines 158-160: one entry of the batch is submitted, the seed with
    [force_scan]. *)
Definition dispatch (s : scraper) (e : entry) : scraper * list entry :=
  let force_scan := String.eqb (fst e) (base_url s) in
  scrape_page s (fst e) (snd e) force_scan.

(** One step of the loop: either the next entry of the running batch is
    scraped and its links are put at the tail of [to_visit], or, between
    two batches, the [while] condition is tested and the next batch is cut
    off the front of [to_visit].  [None]: the loop has ended.  The entries
    of a batch run one at a time and complete in the order in which they
    were submitted; the pool of the source may interleave them. *)
Definition crawl_step (c : crawl) : option crawl :=
  match batch c with
  | e :: rest =>
      let '(s', new_links) := dispatch (self c) e in
      Some (Crawl s' rest (to_visit c ++ new_links))
  | [] =>
      match to_visit c with
      | [] => None
      | _ :: _ =>
          if Z.of_nat (size (visited_urls (self c))) <? max_pages (self c)
          then Some (Crawl (self c) (take 10 (to_visit c)) (drop 10 (to_visit c)))
          else None
      end
  end.

(** The crawl after [n] steps (it stays where it is once the loop has
    ended). *)
Fixpoint crawl_steps (n : nat) (c : crawl) : crawl :=
  match n with
  | O => c
  | S n' =>
      match crawl_step c with
      | Some c' => crawl_steps n' c'
      | None => c
      end
  end.

End Methods.

(** ** Reading the trace *)

(** The rows written by [save_result], oldest first. *)
Fixpoint session_records (tr : list event) : list deadlink_record :=
  match tr with
  | [] => []
  | EvSaveResult r :: tr' => session_records tr' ++ [r]
  | _ :: tr' => session_records tr'
  end.

(** How many times [update_history] ran for [url]. *)
Fixpoint count_updates (url : string) (tr : list event) : nat :=
  match tr with
  | [] => 0%nat
  | EvUpdateHistory u _ :: tr' =>
      ((if String.eqb u url then 1 else 0) + count_updates url tr')%nat
  | _ :: tr' => count_updates url tr'
  end.

(** The pages fetched with [requests.get], with the depth of their entry. *)
Fixpoint fetched (tr : list event) : list entry :=
  match tr with
  | [] => []
  | EvGet u d :: tr' => (u, d) :: fetched tr'
  | _ :: tr' => fetched tr'
  end.

(** ** The vocabulary of the properties *)

Section Vocabulary.
Context (w : World).

(** What holds of an entry returned by a scan that started in [s] and
    ended in [s']: it is one level deeper than the page, in scope, not
    visited, and a HEAD request made during the scan found it alive. *)
Definition discovered (s s' : scraper) (depth : Z) (e : entry) : Prop :=
  e.2 = depth + 1
  ∧ is_valid_url w s e.1 = true
  ∧ (e.1 ∉ visited_urls s)
  ∧ ∃ k, (tick s ≤ k < tick s')%nat ∧ http_head w k e.1 = HeadStatus 200.

(** A property [J] of the scraper is kept by the updates of the loop over
    the anchors of the page [url]: a HEAD request, and a dead link
    recorded after a request that found it dead. *)
Record kept_by_checks (J : scraper → Prop) (url : string) : Prop := {
  kept_head : ∀ x u, J x → J (observe [EvHead u] x);
  kept_dead : ∀ x u, J x → (check_link w x u).2 = Returns true →
    J (save_result (Deadlink url u)
         (append_deadlink (Deadlink url u) (observe [EvHead u] x)))
}.

(** [J] is kept by all the updates of [scrape_page url depth]. *)
Record kept_by_updates (J : scraper → Prop) (url : string) (depth : Z)
  : Prop := {
  kept_checks : kept_by_checks J url;
  kept_visit : ∀ x, J x → J (mark_visited url depth x);
  kept_now : ∀ x, J x → J (observe [] x);
  kept_get : ∀ x, J x → J (observe [EvGet url depth] x);
  kept_history : ∀ x, J x → J (update_history w x url)
}.

(** The invariant of the loop of a crawl started on [s], for a property
    [Q] of the entries of the frontier and a property [F] of the entries
    that were fetched. *)
Definition frontier_invariant (s : scraper) (Q F : entry → Prop)
    (c : crawl) : Prop :=
  base_url (self c) = base_url s ∧ max_depth (self c) = max_depth s
  ∧ Forall Q (batch c) ∧ Forall Q (to_visit c)
  ∧ Forall F (fetched (trace (self c)))
  ∧ ∀ u, u ∈ visited_urls (self c) → ∃ d, Q (u, d).

(** The list in memory is what was loaded followed by what this run
    saved, the file holds the same rows, and every row this run saved is a
    link that a HEAD request of this run did not find alive. *)
Definition accumulated (loaded : list deadlink_record) (x : scraper) : Prop :=
  deadlinks x = loaded ++ session_records (trace x)
  ∧ results_csv x = deadlinks x
  ∧ Forall (λ r, ∃ k, (k < tick x)%nat
                      ∧ http_head w k (deadlink r) ≠ HeadStatus 200)
           (session_records (trace x)).
End Vocabulary.

Arguments kept_head {w J url} _ _ _ _.
Arguments kept_dead {w J url} _ _ _ _ _.
Arguments kept_checks {w J url depth} _.
Arguments kept_visit {w J url depth} _ _ _.
Arguments kept_now {w J url depth} _ _ _.
Arguments kept_get {w J url depth} _ _ _.
Arguments kept_history {w J url depth} _ _ _.

(** ** Building the scraper: [format_and_verify_url], lines 34-61 *)

(** [s.startswith(prefix)]. *)
Fixpoint startswith (s prefix : string) : bool :=
  match prefix with
  | EmptyString => true
  | String c prefix' =>
      match s with
      | EmptyString => false
      | String d s' => Ascii.eqb c d && startswith s' prefix'
      end
  end.

(** The slice [s[n:]]. *)
Fixpoint str_from (n : nat) (s : string) : string :=
  match n with
  | O => s
  | S n' =>
      match s with
      | EmptyString => EmptyString
      | String _ s' => str_from n' s'
      end
  end.

(** What [requests.get(url, timeout=10)] gives to a probe of the
    constructor: a response, a [requests.RequestException], or another
    exception. *)
Inductive probe_outcome :=
| ProbeStatus (status_code : Z)
| ProbeRequestException
| ProbeOtherException.

(** A probe that did not raise and did not answer 200. *)
Definition probe_fails (o : probe_outcome) : Prop :=
  match o with
  | ProbeStatus status_code => status_code ≠ 200
  | ProbeRequestException => True
  | ProbeOtherException => False
  end.

(** How a call made while the scraper is built ends: with a value, with
    [sys.exit(1)], or with an exception that nothing there catches. *)
Inductive ending (A : Type) :=
| Built (a : A)
| Exits
| Propagates.
Arguments Built {A} a.
Arguments Exits {A}.
Arguments Propagates {A}.

(** What the constructor sees of the outside world: whether
    [urlparse(url)] accepts the URL (it raises [ValueError] otherwise), the
    outcome of its [n]-th probe, and
    [urlparse(url)._replace(netloc=n).geturl()]. *)
Record Prober := {
  urlparse_ok : string → bool;
  get_status : nat → string → probe_outcome;
  replace_netloc : string → string → string
}.

Section Construction.
Context (w : World) (p : Prober).

(** [check_url_accessibility], lines 56-61, at probe number [k]: only a
    [RequestException] is caught. *)
Definition check_url_accessibility (k : nat) (url : string) : outcome bool :=
  match get_status p k url with
  | ProbeStatus status_code => Returns (status_code =? 200)
  | ProbeRequestException => Returns false
  | ProbeOtherException => Raises
  end.

(** The URL that is probed first: lines 35-40. *)
Definition formatted_url (url : string) : outcome string :=
  let url :=
    if startswith url "http://" || startswith url "https://"
    then url else ("http://" +:+ url)%string in
  if urlparse_ok p url then
    Returns (if startswith (netloc w url) "www."
             then url
             else replace_netloc p url ("www." +:+ netloc w url)%string)
  else Raises.

(** [format_and_verify_url], lines 34-54. *)
Definition format_and_verify_url (url : string) : ending string :=
  match formatted_url url with
  | Raises => Propagates
  | Returns url =>
      match check_url_accessibility 0 url with
      | Raises => Propagates
      | Returns true => Built url
      | Returns false =>
          if startswith url "http://" then
            let https_url := ("https://" +:+ str_from 7 url)%string in
            match check_url_accessibility 1 https_url with
            | Raises => Propagates
            | Returns true => Built https_url
            | Returns false => Exits
            end
          else Exits
      end
  end.

(** [__init__], lines 15-28.  [mounted] is the drive folder, [None] when
    [drive.mount] raises, which makes [mount_drive] exit; the two files of
    a mounted folder are taken to be created and read without an error. *)
Definition new_scraper (base_url : string) (mounted : option drive)
  : ending scraper :=
  match format_and_verify_url base_url with
  | Built url =>
      match mounted with
      | Some d => Built (init url d)
      | None => Exits
      end
  | Exits => Exits
  | Propagates => Propagates
  end.
End Construction.

(** ** More vocabulary *)

(** The URLs of the HEAD requests, most recent first. *)
Fixpoint heads (tr : list event) : list string :=
  match tr with
  | [] => []
  | EvHead u :: tr' => u :: heads tr'
  | _ :: tr' => heads tr'
  end.

(** The effects of the scan of the page [url] that come after its download:
    HEAD requests for links in scope, dead links of the page, in scope, and
    the update of the history of the page. *)
Definition page_event (w : World) (s : scraper) (url : string) (e : event)
  : Prop :=
  match e with
  | EvGet _ _ => False
  | EvHead u => is_valid_url w s u = true
  | EvSaveResult r => source r = url ∧ is_valid_url w s (deadlink r) = true
  | EvUpdateHistory u _ => u = url
  end.

(** The verdict of [check_link] on a site whose answer to a HEAD request
    does not depend on when it is asked: dead, alive, or neither when the
    request raises an exception that [check_link] does not catch. *)
Definition head_dead (w : World) (u : string) : bool :=
  match http_head w 0 u with
  | HeadStatus status_code => negb (status_code =? 200)
  | HeadRequestException => true
  | HeadOtherException => false
  end.

Definition head_alive (w : World) (u : string) : bool :=
  match http_head w 0 u with
  | HeadStatus status_code => status_code =? 200
  | _ => false
  end.

(** Two measures of what is left of a crawl: the pages that may still be
    visited below the bound [B], and the entries still to be handled, an
    entry of the frontier counting twice. *)
Definition slack (B : Z) (c : crawl) : nat :=
  Z.to_nat (B - Z.of_nat (size (visited_urls (self c)))).

Definition pending (c : crawl) : nat :=
  (2 * length (to_visit c) + length (batch c))%nat.


(** ** A small site to run the crawl on *)

Module Demo.
Local Open Scope string_scope.

(** The text between the first [//] and the next [/], [?] or [#]: the
    [netloc] of the URLs below. *)
Fixpoint after_slashes (u : string) : string :=
  match u with
  | String "/"%char (String "/"%char r) => r
  | String _ r => after_slashes r
  | EmptyString => EmptyString
  end.

Fixpoint until_delim (u : string) : string :=
  match u with
  | String c r =>
      if (Ascii.eqb c "/" || Ascii.eqb c "?" || Ascii.eqb c "#")%char
      then EmptyString else String c (until_delim r)
  | EmptyString => EmptyString
  end.

Definition netloc_of (u : string) : string := until_delim (after_slashes u).

(** The host of a URL whose netloc is [host] or [host:port], as
    [urlparse(url).hostname] gives it for a netloc in lower case without
    user information: the netloc up to the colon of the port. *)
Fixpoint until_colon (n : string) : string :=
  match n with
  | String c r =>
      if Ascii.eqb c ":"%char then EmptyString else String c (until_colon r)
  | EmptyString => EmptyString
  end.

Definition host_of (u : string) : string := until_colon (netloc_of u).

Definition home : string := "http://www.example.com".
Definition page (name : string) : string := "http://www.example.com/" +:+ name.
Definition external : string := "http://other.org/x".

(** The home page links to five pages that are up, to a page that is
    gone (404), to another site, and to a page whose download fails.
    Every other page links back home.  All hrefs are absolute, so
    [urljoin] returns them as they are. *)
Definition site : World :=
  {| netloc := netloc_of;
     urljoin := λ _ href, href;
     http_get := λ _ u,
       if String.eqb u home
       then GetOk [page "p1"; page "p2"; page "p3"; page "p4"; page "p5";
                   page "missing"; external; page "down"]
       else if String.eqb u (page "down") then GetRaises
       else GetOk [home];
     http_head := λ _ u,
       if String.eqb u (page "missing") then HeadStatus 404
       else if String.eqb u (page "slow") then HeadRequestException
       else HeadStatus 200;
     clock := λ n, 1000000000000000 + Z.of_nat n |}.

(** A site of two pages that link to each other, whose home page answers
    405 to HEAD requests. *)
Definition no_head : World :=
  {| netloc := netloc_of;
     urljoin := λ _ href, href;
     http_get := λ _ u,
       if String.eqb u home then GetOk [page "p1"] else GetOk [home];
     http_head := λ _ u,
       if String.eqb u home then HeadStatus 405 else HeadStatus 200;
     clock := λ n, 1000000000000000 + Z.of_nat n |}.

(** A site that cannot be downloaded at all. *)
Definition offline : World :=
  {| netloc := netloc_of;
     urljoin := λ _ href, href;
     http_get := λ _ _, GetRaises;
     http_head := λ _ _, HeadRequestException;
     clock := λ n, 1000000000000000 + Z.of_nat n |}.

(** A scraper as [__init__] leaves it on an empty drive folder, with the
    two ceilings set to [pages] and [depth]. *)
Definition fresh (pages depth : Z) : scraper :=
  Scraper home pages depth ∅ [] 0 [] [] [] 0%nat [].

(** A scraper whose history says that [url] was scanned [days] days before
    the first reading of the clock. *)
Definition scanned_before (url : string) (days : Z) : scraper :=
  Scraper home 10000 20 ∅ [] 0
          [(url, clock site 0 - timedelta_days days)] []
          [(url, clock site 0 - timedelta_days days)] 0%nat [].

(** A drive folder that holds one dead link of an earlier run. *)
Definition old_record : deadlink_record := Deadlink home (page "old").
Definition used_drive : drive :=
  {| stored_results := Some [old_record]; stored_history := Some [] |}.

(** A prober for which only the https address of the site answers 200, and
    one for which nothing answers.  The home page has no path, so the
    netloc is replaced by rewriting the text after the scheme. *)
Definition https_only : Prober :=
  {| urlparse_ok := λ _, true;
     get_status := λ _ u,
       if String.eqb u "https://www.example.com"
       then ProbeStatus 200 else ProbeRequestException;
     replace_netloc := λ u n,
       if startswith u "https://" then "https://" +:+ n else "http://" +:+ n |}.

Definition unreachable : Prober :=
  {| urlparse_ok := λ _, true;
     get_status := λ _ _, ProbeStatus 503;
     replace_netloc := replace_netloc https_only |}.
End Demo.

(** ** Properties of the helpers *)

Lemma endswith_spec (s suffix : string) :
  endswith s suffix = true ↔ ∃ p, s = p +:+ suffix.
Proof.
  induction s as [|a s IH]; cbn [endswith].
  - rewrite orb_false_r, String.eqb_eq. split.
    + intros <-. by exists EmptyString.
    + intros [[|b p] Hp]; simpl in Hp; [done | discriminate].
  - rewrite orb_true_iff, String.eqb_eq, IH. split.
    + intros [<- | [p ->]]; [by exists EmptyString | by exists (String a p)].
    + intros [[|b p] Hp]; simpl in Hp; [by left | right].
      injection Hp as _ ->. by exists p.
Qed.

Lemma endswith_refl (s : string) : endswith s s = true.
Proof. apply endswith_spec. by exists EmptyString. Qed.

Lemma in_history_spec (url : string) (df : list history_row) :
  in_history url df = true ↔ ∃ t, (url, t) ∈ df.
Proof.
  unfold in_history. rewrite existsb_exists. split.
  - intros [[u t] [Hin Heq]]. apply String.eqb_eq in Heq. simpl in Heq.
    subst u. exists t. by apply list_elem_of_In.
  - intros [t Hin]. exists (url, t). split; [by apply list_elem_of_In |].
    apply String.eqb_refl.
Qed.



(** ** What one call of [scrape_page] preserves

    [scrape_page url depth] is a sequence of field updates.  A property of
    the scraper that every one of them keeps is kept by the whole call. *)

Lemma check_link_state (w : World) (s : scraper) (u : string) :
  (check_link w s u).1 = observe [EvHead u] s.
Proof. unfold check_link. by destruct (http_head w (tick s) u). Qed.

Lemma check_link_dead (w : World) (s : scraper) (u : string) :
  (check_link w s u).2 = Returns true ↔
  (∃ code, http_head w (tick s) u = HeadStatus code ∧ code ≠ 200)
  ∨ http_head w (tick s) u = HeadRequestException.
Proof.
  unfold check_link. destruct (http_head w (tick s) u) as [code| |]; simpl.
  - destruct (Z.eqb_spec code 200) as [-> | Hne]; simpl.
    + split; [done |]. intros [(c & [= <-] & Hc) | ?]; done.
    + split; [|done]. intros _. left. by exists code.
  - split; [by right | done].
  - split; [done |]. intros [(c & ? & _) | ?]; done.
Qed.

Lemma check_link_alive (w : World) (s : scraper) (u : string) :
  (check_link w s u).2 = Returns false ↔
  http_head w (tick s) u = HeadStatus 200.
Proof.
  unfold check_link. destruct (http_head w (tick s) u) as [code| |]; simpl.
  - destruct (Z.eqb_spec code 200) as [-> | Hne]; simpl; [done |].
    split; [done |]. intros [= ?]. done.
  - done.
  - done.
Qed.

Section Preservation.
Context (w : World) (J : scraper → Prop) (url : string) (depth : Z).

Local Abbreviation kept_by_checks := (kept_by_checks w J url).
Local Abbreviation kept_by_updates := (kept_by_updates w J url depth).

Lemma rescan_gate_keeps (s : scraper) (force_scan : bool) :
  kept_by_updates → J s → J (rescan_gate w s url force_scan).1.
Proof.
  intros K Hs. unfold rescan_gate.
  destruct (negb force_scan && in_history url (history_df s)); [|done].
  destruct (last_scanned url (history_df s)); [|done].
  simpl. by apply (kept_now K).
Qed.

Lemma process_links_keeps (hrefs : list string) :
  kept_by_checks →
  ∀ s acc, J s → J (process_links w s url depth hrefs acc).1.
Proof.
  intros K. induction hrefs as [|href rest IH]; intros s acc Hs; simpl; [done |].
  destruct (is_valid_url w s (urljoin w url href)); [|by apply IH].
  pose proof (check_link_state w s (urljoin w url href)) as Hst.
  pose proof (kept_dead K s (urljoin w url href) Hs) as Hdead.
  destruct (check_link w s (urljoin w url href)) as [s1 [[|]|]];
    simpl in Hst, Hdead; subst s1.
  - apply IH. by apply Hdead.
  - destruct (decide _); apply IH; by apply (kept_head K).
  - by apply (kept_head K).
Qed.

Lemma scrape_page_keeps (s : scraper) (force_scan : bool) :
  (url ∉ visited_urls s → depth ≤ max_depth s → kept_by_updates) →
  J s → J (scrape_page w s url depth force_scan).1.
Proof.
  intros K Hs. unfold scrape_page.
  destruct (bool_decide (url ∈ visited_urls s)) eqn:Hv; simpl; [done |].
  destruct (max_depth s <? depth) eqn:Hd; [done |].
  apply bool_decide_eq_false in Hv. apply Z.ltb_ge in Hd.
  specialize (K Hv Hd).
  pose proof (rescan_gate_keeps (mark_visited url depth s) force_scan K
                (kept_visit K s Hs)) as Hg.
  destruct (rescan_gate w (mark_visited url depth s) url force_scan)
    as [s2 [|]]; simpl in Hg; [done |].
  pose proof (kept_get K s2 Hg) as H3.
  destruct (http_get w (tick s2) url) as [hrefs|]; [|done].
  pose proof (process_links_keeps hrefs (kept_checks K) _ [] H3) as H4.
  destruct (process_links w (observe [EvGet url depth] s2) url depth hrefs [])
    as [s4 [links|]]; simpl in *; [|done].
  by apply (kept_history K).
Qed.
End Preservation.

(** ** Frame properties of [scrape_page] *)

Section Frame.
Context (w : World).

(** The configuration is never written. *)
Lemma scrape_page_config (s : scraper) (url : string) (depth : Z) (f : bool) :
  let s' := (scrape_page w s url depth f).1 in
  base_url s' = base_url s ∧ max_pages s' = max_pages s
  ∧ max_depth s' = max_depth s.
Proof.
  apply (scrape_page_keeps w
           (λ x, base_url x = base_url s ∧ max_pages x = max_pages s
                 ∧ max_depth x = max_depth s)); [|done].
  intros _ _. split; [split |..]; done.
Qed.

(** The visited set grows by the page itself, or not at all. *)
Lemma scrape_page_visited (s : scraper) (url : string) (depth : Z) (f : bool) :
  let s' := (scrape_page w s url depth f).1 in
  visited_urls s' = visited_urls s
  ∨ ((url ∉ visited_urls s) ∧ depth ≤ max_depth s
     ∧ visited_urls s' = {[url]} ∪ visited_urls s).
Proof.
  apply (scrape_page_keeps w
           (λ x, visited_urls x = visited_urls s
                 ∨ ((url ∉ visited_urls s) ∧ depth ≤ max_depth s
                    ∧ visited_urls x = {[url]} ∪ visited_urls s)));
    [|by left].
  intros Hv Hd. split; [by split | | done..].
  intros x [Hx | (_ & _ & Hx)]; right; (split; [done |]);
    (split; [done |]); simpl; rewrite Hx; [done |].
  by rewrite (assoc_L (∪)), (idemp_L (∪)).
Qed.

Lemma scrape_page_size (s : scraper) (url : string) (depth : Z) (f : bool) :
  (size (visited_urls (scrape_page w s url depth f).1)
   ≤ S (size (visited_urls s)))%nat.
Proof.
  destruct (scrape_page_visited s url depth f) as [-> | (Hv & _ & ->)]; [lia |].
  rewrite size_union by set_solver. rewrite size_singleton. lia.
Qed.

Lemma scrape_page_visited_mono (s : scraper) (url : string) (depth : Z) (f : bool) :
  visited_urls s ⊆ visited_urls (scrape_page w s url depth f).1.
Proof.
  destruct (scrape_page_visited s url depth f) as [-> | (_ & _ & ->)];
    set_solver.
Qed.

(** What is true of the loop at its start and is kept by every step is
    true after any number of steps. *)
Lemma crawl_steps_invariant (I : crawl → Prop) :
  (∀ c c', I c → crawl_step w c = Some c' → I c') →
  ∀ n c, I c → I (crawl_steps w n c).
Proof.
  intros Hstep. induction n as [|n IH]; intros c Hc; simpl; [done |].
  destruct (crawl_step w c) as [c'|] eqn:Hc'; [|done].
  apply IH. by eapply Hstep.
Qed.

(** The two shapes of a step. *)
Lemma crawl_step_inv (c c' : crawl) :
  crawl_step w c = Some c' →
  (∃ e rest, batch c = e :: rest
     ∧ c' = Crawl (dispatch w (self c) e).1 rest
                  (to_visit c ++ (dispatch w (self c) e).2))
  ∨ (batch c = [] ∧ to_visit c ≠ []
     ∧ Z.of_nat (size (visited_urls (self c))) < max_pages (self c)
     ∧ c' = Crawl (self c) (take 10 (to_visit c)) (drop 10 (to_visit c))).
Proof.
  unfold crawl_step. destruct (batch c) as [|e rest].
  - destruct (to_visit c) as [|e0 q] eqn:Hq; [done |].
    destruct (Z.ltb_spec (Z.of_nat (size (visited_urls (self c))))
                (max_pages (self c))); [|done].
    intros [= <-]. by right.
  - destruct (dispatch w (self c) e) as [s' links] eqn:Hd.
    intros [= <-]. left. exists e, rest. by rewrite Hd.
Qed.

Lemma dispatch_config (s : scraper) (e : entry) :
  let s' := (dispatch w s e).1 in
  base_url s' = base_url s ∧ max_pages s' = max_pages s
  ∧ max_depth s' = max_depth s.
Proof. apply scrape_page_config. Qed.

(** The ceilings and the base URL are those of the scraper the crawl was
    started on. *)
Lemma crawl_config (s : scraper) (n : nat) :
  let c := crawl_steps w n (start_scraping s) in
  base_url (self c) = base_url s ∧ max_pages (self c) = max_pages s
  ∧ max_depth (self c) = max_depth s.
Proof.
  apply (crawl_steps_invariant
           (λ c, base_url (self c) = base_url s
                 ∧ max_pages (self c) = max_pages s
                 ∧ max_depth (self c) = max_depth s)); [|done].
  intros c c' (Hb & Hp & Hd) Hstep.
  apply crawl_step_inv in Hstep as [(e & rest & _ & ->) | (_ & _ & _ & ->)];
    simpl; [|done].
  destruct (dispatch_config (self c) e) as (-> & -> & ->). done.
Qed.

(** The visited pages and the entries of the running batch that are still
    to run never add up to more than the ceiling plus nine. *)
Lemma crawl_visited_bound (s : scraper) (n : nat) :
  let c := crawl_steps w n (start_scraping s) in
  Z.of_nat (size (visited_urls (self c))) + Z.of_nat (length (batch c))
  ≤ Z.max (Z.of_nat (size (visited_urls s))) (max_pages s + 9)
  ∧ (length (batch c) ≤ 10)%nat.
Proof.
  apply (crawl_steps_invariant
           (λ c, max_pages (self c) = max_pages s
                 ∧ Z.of_nat (size (visited_urls (self c)))
                   + Z.of_nat (length (batch c))
                   ≤ Z.max (Z.of_nat (size (visited_urls s))) (max_pages s + 9)
                 ∧ (length (batch c) ≤ 10)%nat)); [|simpl; lia].
  intros c c' (Hp & Hb & Hl) Hstep.
  apply crawl_step_inv in Hstep
    as [(e & rest & He & ->) | (_ & _ & Hlt & ->)]; simpl.
  - rewrite He in Hb, Hl. simpl in Hb, Hl.
    destruct (dispatch_config (self c) e) as (_ & -> & _).
    pose proof (scrape_page_size (self c) e.1 e.2
                  (String.eqb e.1 (base_url (self c)))) as Hsz.
    unfold dispatch. lia.
  - rewrite length_take. lia.
Qed.
End Frame.

(** ** The page ceiling *)

(** C10.  For every crawl the visited set never holds more than
    [max_pages + 9] pages: a batch has at most 10 entries, every dispatched
    entry adds at most one page, and the ceiling is only tested when a new
    batch is cut. *)
Theorem visited_at_most_max_pages_plus_nine (w : World) (s : scraper) (n : nat) :
  visited_urls s = ∅ → 0 ≤ max_pages s →
  let c := crawl_steps w n (start_scraping s) in
  Z.of_nat (size (visited_urls (self c))) ≤ max_pages s + 9
  ∧ (length (batch c) ≤ 10)%nat
  ∧ ∀ e, (size (visited_urls (dispatch w (self c) e).1)
          ≤ S (size (visited_urls (self c))))%nat.
Proof.
  intros Hv Hp c. destruct (crawl_visited_bound w s n) as [Hb Hl].
  fold c in Hb, Hl. rewrite Hv, size_empty in Hb.
  split; [lia | split; [done |]].
  intros e. apply scrape_page_size.
Qed.

Lemma visited_at_most_max_pages_plus_nine_witness :
  let s := Demo.fresh 2 20 in
  let c := crawl_steps Demo.site 9 (start_scraping s) in
  visited_urls s = ∅ ∧ 0 ≤ max_pages s
  ∧ Z.of_nat (size (visited_urls (self c))) ≤ max_pages s + 9.
Proof.
  split; [reflexivity |]. split; [simpl; lia |].
  apply (visited_at_most_max_pages_plus_nine Demo.site (Demo.fresh 2 20) 9);
    [reflexivity | simpl; lia].
Defined.

(** C1, as stated, fails: with a ceiling of two pages the home page is
    scraped alone, the six pages it links to form the next batch, and all of
    them are visited. *)
Lemma ceiling_exceeded_within_batch :
  let s := Demo.fresh 2 20 in
  let c := crawl_steps Demo.site 9 (start_scraping s) in
  visited_urls s = ∅ ∧ max_pages s = 2
  ∧ size (visited_urls (self c)) = 7%nat
  ∧ ¬ Z.of_nat (size (visited_urls (self c))) ≤ max_pages s.
Proof.
  assert (size (visited_urls
                  (self (crawl_steps Demo.site 9
                           (start_scraping (Demo.fresh 2 20))))) = 7%nat) as H
    by (vm_compute; reflexivity).
  cbv zeta. rewrite H. simpl. repeat split; lia.
Qed.

(** C1, amended.  A batch is cut only while fewer than [max_pages] pages
    are visited, and none is cut once the ceiling is reached; an entry of a
    batch that was cut is always run, whatever the size of the visited set.
    So the ceiling can be passed while a batch runs, and at every point the
    visited pages together with the entries of the batch still to run are at
    most [max_pages + 9]. *)
Theorem ceiling_tested_between_batches (w : World) (s : scraper) (n : nat) :
  visited_urls s = ∅ → 0 ≤ max_pages s →
  let c := crawl_steps w n (start_scraping s) in
  Z.of_nat (size (visited_urls (self c))) + Z.of_nat (length (batch c))
  ≤ max_pages s + 9
  ∧ (batch c = [] → max_pages s ≤ Z.of_nat (size (visited_urls (self c))) →
     crawl_step w c = None)
  ∧ (∀ c', batch c = [] → crawl_step w c = Some c' →
     Z.of_nat (size (visited_urls (self c))) < max_pages s
     ∧ self c' = self c ∧ batch c' = take 10 (to_visit c)
     ∧ to_visit c' = drop 10 (to_visit c))
  ∧ (∀ e rest, batch c = e :: rest →
     ∃ c', crawl_step w c = Some c' ∧ batch c' = rest
           ∧ self c' = (dispatch w (self c) e).1).
Proof.
  intros Hv Hp c. destruct (crawl_visited_bound w s n) as [Hb _].
  destruct (crawl_config w s n) as (_ & Hmax & _).
  fold c in Hb, Hmax. rewrite Hv, size_empty in Hb.
  split; [lia |]. split; [|split].
  - intros Hbatch Hfull. unfold crawl_step. rewrite Hbatch.
    destruct (to_visit c); [done |].
    destruct (Z.ltb_spec (Z.of_nat (size (visited_urls (self c))))
                (max_pages (self c))); [lia | done].
  - intros c' Hbatch Hstep.
    apply crawl_step_inv in Hstep
      as [(e & rest & He & _) | (_ & _ & Hlt & ->)]; [congruence |].
    simpl. split; [lia | done].
  - intros e rest Hbatch. unfold crawl_step. rewrite Hbatch.
    destruct (dispatch w (self c) e) as [s' links]. by eexists.
Qed.

Lemma ceiling_tested_between_batches_witness :
  let s := Demo.fresh 2 20 in
  let c := crawl_steps Demo.site 5 (start_scraping s) in
  visited_urls s = ∅ ∧ 0 ≤ max_pages s
  ∧ Z.of_nat (size (visited_urls (self c))) + Z.of_nat (length (batch c))
    ≤ max_pages s + 9.
Proof.
  split; [reflexivity |]. split; [simpl; lia |].
  apply (ceiling_tested_between_batches Demo.site (Demo.fresh 2 20) 5);
    [reflexivity | simpl; lia].
Defined.

(** ** The links a page contributes to the frontier *)

Section Links.
Context (w : World).

Local Abbreviation discovered := (discovered w).

Lemma is_valid_url_base (s1 s2 : scraper) (u : string) :
  base_url s1 = base_url s2 → is_valid_url w s1 u = is_valid_url w s2 u.
Proof. unfold is_valid_url. by intros ->. Qed.

Lemma discovered_weaken (s0 s1 s' : scraper) (depth : Z) (e : entry) :
  base_url s1 = base_url s0 → visited_urls s0 ⊆ visited_urls s1 →
  (tick s0 ≤ tick s1)%nat →
  discovered s1 s' depth e → discovered s0 s' depth e.
Proof.
  intros Hb Hv Ht (Hd & Hvalid & Hnv & k & Hk & Hhead).
  split; [done |]. split; [by rewrite <- (is_valid_url_base s1 s0) |].
  split; [intros Hin; apply Hnv; by apply Hv |].
  exists k. split; [lia | done].
Qed.

Lemma process_links_tick (url : string) (depth : Z) (hrefs : list string)
    (s : scraper) (acc : list entry) :
  (tick s ≤ tick (process_links w s url depth hrefs acc).1)%nat.
Proof.
  apply (process_links_keeps w (λ x, (tick s ≤ tick x)%nat)); [|done].
  split; simpl; intros; lia.
Qed.

Lemma process_links_links (url : string) (depth : Z) (hrefs : list string) :
  ∀ s acc s' links,
    process_links w s url depth hrefs acc = (s', Returns links) →
    ∃ new, links = acc ++ new ∧ Forall (discovered s s' depth) new.
Proof.
  induction hrefs as [|href rest IH]; intros s acc s' links; simpl.
  - intros [= <- <-]. exists []. by rewrite app_nil_r.
  - destruct (is_valid_url w s (urljoin w url href)) eqn:Hvalid; [|by apply IH].
    pose proof (check_link_state w s (urljoin w url href)) as Hst.
    pose proof (check_link_alive w s (urljoin w url href)) as Halive.
    destruct (check_link w s (urljoin w url href)) as [s1 [[|]|]];
      simpl in Hst, Halive; subst s1; [| |done].
    + intros Hrest. apply IH in Hrest as (new & -> & Hnew).
      exists new. split; [done |].
      eapply Forall_impl; [exact Hnew |]. intros e.
      apply discovered_weaken; simpl; [done | done | lia].
    + destruct (decide _) as [Hin | Hnotin]; intros Hrest.
      * apply IH in Hrest as (new & -> & Hnew).
        exists new. split; [done |].
        eapply Forall_impl; [exact Hnew |]. intros e.
        apply discovered_weaken; simpl; [done | done | lia].
      * pose proof (process_links_tick url depth rest
                      (observe [EvHead (urljoin w url href)] s)
                      (acc ++ [(urljoin w url href, depth + 1)])) as Ht.
        rewrite Hrest in Ht. simpl in Ht.
        apply IH in Hrest as (new & -> & Hnew).
        exists ((urljoin w url href, depth + 1) :: new).
        split; [by rewrite <- app_assoc |].
        constructor.
        -- split; [done |]. split; [done |]. split; [done |].
           exists (tick s). split; [lia |]. by apply Halive.
        -- eapply Forall_impl; [exact Hnew |]. intros e.
           apply discovered_weaken; simpl; [done | done | lia].
Qed.

Lemma rescan_gate_frame (s : scraper) (url : string) (f : bool) :
  let s' := (rescan_gate w s url f).1 in
  base_url s' = base_url s ∧ visited_urls s' = visited_urls s
  ∧ history_df s' = history_df s ∧ trace s' = trace s
  ∧ deadlinks s' = deadlinks s ∧ (tick s ≤ tick s')%nat.
Proof.
  unfold rescan_gate.
  destruct (negb f && in_history url (history_df s)); [|done].
  destruct (last_scanned url (history_df s)); simpl; [|done].
  repeat split; lia.
Qed.

(** Every entry [scrape_page] returns was discovered on the page; the
    page itself is not among them. *)
Lemma scrape_page_links (s : scraper) (url : string) (depth : Z) (f : bool) :
  Forall (λ e, discovered s (scrape_page w s url depth f).1 depth e
               ∧ e.1 ≠ url)
         (scrape_page w s url depth f).2.
Proof.
  unfold scrape_page.
  destruct (bool_decide (url ∈ visited_urls s)); simpl; [done |].
  destruct (max_depth s <? depth); [done |].
  destruct (rescan_gate_frame (mark_visited url depth s) url f)
    as (Hb & Hv & _ & _ & _ & Ht).
  destruct (rescan_gate w (mark_visited url depth s) url f) as [s2 [|]];
    simpl in *; [done |].
  destruct (http_get w (tick s2) url) as [hrefs|]; [|done].
  destruct (process_links w (observe [EvGet url depth] s2) url depth hrefs [])
    as [s4 [links|]] eqn:Hp; simpl; [|done].
  apply process_links_links in Hp as (new & -> & Hnew). simpl.
  eapply Forall_impl; [exact Hnew |]. intros e He. split.
  - destruct He as (Hd & Hvalid & Hnv & k & Hk & Hhead).
    simpl in Hnv, Hk. rewrite Hv in Hnv.
    split; [done |].
    split; [by rewrite <- (is_valid_url_base (observe [EvGet url depth] s2) s) |].
    split; [intros Hin; apply Hnv, elem_of_union; by right |].
    exists k. split; [simpl; lia | done].
  - destruct He as (_ & _ & Hnv & _). simpl in Hnv. rewrite Hv in Hnv.
    intros Heq. apply Hnv, elem_of_union. left. by apply elem_of_singleton.
Qed.
End Links.

(** ** Invariants of the frontier *)

Section Frontier.
Context (w : World) (s : scraper).

(** [Q] is a property of the entries of the frontier: it holds of the seed
    and of every discovered entry.  [F] follows from [Q] for an entry that
    is not deeper than [max_depth]. *)
Context (Q F : entry → Prop).
Hypothesis Q_seed : Q (base_url s, 0).
Hypothesis Q_discovered :
  ∀ s1 s2 d e, base_url s1 = base_url s → discovered w s1 s2 d e → Q e.
Hypothesis F_fetched : ∀ e, Q e → e.2 ≤ max_depth s → F e.

Local Abbreviation frontier_invariant := (frontier_invariant s Q F).

Lemma frontier_invariant_step (c c' : crawl) :
  frontier_invariant c → crawl_step w c = Some c' → frontier_invariant c'.
Proof.
  intros (Hb & Hd & Hbatch & Hq & Hf & Hv) Hstep.
  apply crawl_step_inv in Hstep
    as [(e & rest & He & ->) | (_ & _ & _ & ->)]; unfold frontier_invariant;
    simpl.
  - rewrite He in Hbatch. apply Forall_cons in Hbatch as [HQe Hrest].
    destruct (dispatch_config w (self c) e) as (-> & _ & ->).
    destruct e as [url depth]. unfold dispatch. simpl.
    set (f := String.eqb url (base_url (self c))).
    split; [done |]. split; [done |]. split; [done |]. split; [|split].
    + apply Forall_app. split; [done |].
      eapply Forall_impl; [apply scrape_page_links |].
      intros e [He' _]. by eapply Q_discovered.
    + apply (scrape_page_keeps w (λ x, Forall F (fetched (trace x))));
        [|done].
      intros _ Hle. split; [split |..]; try done.
      intros x Hx. simpl. constructor; [|done].
      apply F_fetched; [done |]. simpl. by rewrite <- Hd.
    + intros u Hu.
      destruct (scrape_page_visited w (self c) url depth f)
        as [Heq | (_ & _ & Heq)]; rewrite Heq in Hu; [by apply Hv |].
      apply elem_of_union in Hu as [Hu | Hu]; [|by apply Hv].
      apply elem_of_singleton in Hu as ->. by exists depth.
  - repeat split; try done; [by apply Forall_take | by apply Forall_drop].
Qed.

Lemma frontier_invariant_holds (n : nat) :
  visited_urls s = ∅ → trace s = [] →
  frontier_invariant (crawl_steps w n (start_scraping s)).
Proof.
  intros Hv Ht. apply crawl_steps_invariant.
  - apply frontier_invariant_step.
  - unfold frontier_invariant. simpl. rewrite Hv, Ht. simpl.
    repeat split; try done. by constructor.
Qed.
End Frontier.

(** ** The depth ceiling *)

(** C2, as stated, fails: with [max_depth = 0] the home page, at depth 0,
    puts the pages it links to into the frontier at depth 1. *)
Lemma entry_beyond_max_depth_enqueued :
  let s := Demo.fresh 10000 0 in
  let c := crawl_steps Demo.site 2 (start_scraping s) in
  max_depth s = 0
  ∧ to_visit c = [(Demo.page "p1", 1); (Demo.page "p2", 1);
                  (Demo.page "p3", 1); (Demo.page "p4", 1);
                  (Demo.page "p5", 1); (Demo.page "down", 1)].
Proof. split; [reflexivity | vm_compute; reflexivity]. Qed.

Section Enqueue.
Context (w : World).

(** An anchor of the page that is in scope, alive whenever it is asked
    and not visited is among the links the loop returns. *)
Lemma process_links_enqueues (url : string) (depth : Z) (hrefs : list string)
    (href : string) :
  href ∈ hrefs →
  (∀ k, http_head w k (urljoin w url href) = HeadStatus 200) →
  ∀ s acc s' links,
    is_valid_url w s (urljoin w url href) = true →
    urljoin w url href ∉ visited_urls s →
    process_links w s url depth hrefs acc = (s', Returns links) →
    (urljoin w url href, depth + 1) ∈ links.
Proof.
  intros Hin Halive.
  induction hrefs as [|href0 rest IH]; [by apply elem_of_nil in Hin |].
  intros s acc s' links Hvalid Hnv. cbn [process_links].
  apply elem_of_cons in Hin as [<- | Hin].
  - rewrite Hvalid. unfold check_link. rewrite Halive. simpl.
    destruct (decide (urljoin w url href ∈ visited_urls s)); [done |].
    intros Hrest. apply process_links_links in Hrest as (new & -> & _).
    apply elem_of_app. left. apply elem_of_app. right. left.
  - specialize (IH Hin).
    destruct (is_valid_url w s (urljoin w url href0)); [|by apply IH].
    pose proof (check_link_state w s (urljoin w url href0)) as Hst.
    destruct (check_link w s (urljoin w url href0)) as [s1 [[|]|]];
      simpl in Hst; subst s1; [| |done].
    + by apply IH.
    + destruct (decide _); by apply IH.
Qed.

(** So is it among the links [scrape_page] returns when the page was
    downloaded and its anchors were processed to the end. *)
Lemma scrape_page_enqueues (x : scraper) (url : string) (depth : Z) (f : bool)
    (hrefs : list string) (s4 : scraper) (links : list entry) (href : string) :
  url ∉ visited_urls x → depth ≤ max_depth x →
  (rescan_gate w (mark_visited url depth x) url f).2 = false →
  http_get w (tick (rescan_gate w (mark_visited url depth x) url f).1) url
  = GetOk hrefs →
  process_links w
    (observe [EvGet url depth]
       (rescan_gate w (mark_visited url depth x) url f).1)
    url depth hrefs [] = (s4, Returns links) →
  href ∈ hrefs →
  is_valid_url w x (urljoin w url href) = true →
  (∀ k, http_head w k (urljoin w url href) = HeadStatus 200) →
  urljoin w url href ∉ visited_urls x → urljoin w url href ≠ url →
  (scrape_page w x url depth f).2 = links
  ∧ (urljoin w url href, depth + 1) ∈ links.
Proof.
  intros Hv Hd Hg Hget Hloop Hin Hvalid Halive Hnv Hne.
  destruct (rescan_gate_frame w (mark_visited url depth x) url f)
    as (Hb & Hvis & _).
  split.
  - unfold scrape_page. rewrite (bool_decide_eq_false_2 _ Hv).
    apply Z.ltb_ge in Hd. rewrite Hd. simpl.
    destruct (rescan_gate w (mark_visited url depth x) url f) as [s2 skip].
    simpl in *. subst skip. by rewrite Hget, Hloop.
  - eapply (process_links_enqueues url depth hrefs href Hin Halive);
      [| |exact Hloop].
    + rewrite <- Hvalid. apply is_valid_url_base. simpl. by rewrite Hb.
    + simpl. rewrite Hvis. simpl. intros Hu.
      apply elem_of_union in Hu as [Hu | Hu]; [|done].
      by apply elem_of_singleton in Hu.
Qed.
End Enqueue.

(** C2, amended.  Every page that is fetched has a depth of at most
    [max_depth].  The depth is tested when an entry is dispatched, not when
    it is discovered: [scrape_page] drops an entry deeper than [max_depth]
    without fetching it or marking it visited, while a link in scope, alive
    and not visited that is found on a downloaded page of depth [d] is
    returned with depth [d + 1] and put into the frontier, whatever
    [max_depth] is. *)
Theorem depth_tested_at_dispatch (w : World) (s : scraper) (n : nat) :
  visited_urls s = ∅ → trace s = [] →
  let c := crawl_steps w n (start_scraping s) in
  Forall (λ e, e.2 ≤ max_depth s) (fetched (trace (self c)))
  ∧ (∀ url depth f, max_depth (self c) < depth →
       scrape_page w (self c) url depth f = (self c, []))
  ∧ (∀ url depth f,
       Forall (λ e, e.2 = depth + 1) (scrape_page w (self c) url depth f).2)
  ∧ (∀ x url depth hrefs s4 links href rest q,
       let f := String.eqb url (base_url x) in
       let g := rescan_gate w (mark_visited url depth x) url f in
       let u := urljoin w url href in
       url ∉ visited_urls x → depth ≤ max_depth x → g.2 = false →
       http_get w (tick g.1) url = GetOk hrefs →
       process_links w (observe [EvGet url depth] g.1) url depth hrefs []
       = (s4, Returns links) →
       href ∈ hrefs → is_valid_url w x u = true →
       (∀ k, http_head w k u = HeadStatus 200) →
       u ∉ visited_urls x → u ≠ url →
       (u, depth + 1) ∈ (scrape_page w x url depth f).2
       ∧ ∃ c', crawl_step w (Crawl x ((url, depth) :: rest) q) = Some c'
               ∧ (u, depth + 1) ∈ to_visit c').
Proof.
  intros Hv Ht c. split; [|split; [|split]].
  - assert (frontier_invariant s (λ _, True) (λ e, e.2 ≤ max_depth s) c)
      as (_ & _ & _ & _ & Hf & _); [|done].
    by apply (frontier_invariant_holds w).
  - intros url depth f Hd. unfold scrape_page.
    apply Z.ltb_lt in Hd. rewrite Hd. by rewrite orb_true_r.
  - intros url depth f.
    eapply Forall_impl; [apply scrape_page_links |].
    by intros e [(He & _) _].
  - intros x url depth hrefs s4 links href rest q f g u
      Hnv Hd Hg Hget Hloop Hin Hvalid Halive Hunv Hne.
    destruct (scrape_page_enqueues w x url depth f hrefs s4 links href)
      as [Hlinks Hu]; try done.
    split; [by rewrite Hlinks |].
    unfold crawl_step, dispatch. cbn [batch self to_visit fst snd]. fold f.
    destruct (scrape_page w x url depth f) as [x' links'].
    simpl in Hlinks. subst links'. eexists. split; [done |].
    simpl. apply elem_of_app. by right.
Qed.

Lemma depth_tested_at_dispatch_witness :
  let s := Demo.fresh 10000 0 in
  let c := crawl_steps Demo.site 12 (start_scraping s) in
  visited_urls s = ∅ ∧ trace s = [] ∧ max_depth s = 0
  ∧ Forall (λ e, e.2 ≤ max_depth s) (fetched (trace (self c)))
  ∧ (Demo.page "p1", 0 + 1)
    ∈ (scrape_page Demo.site s Demo.home 0
         (String.eqb Demo.home (base_url s))).2.
Proof.
  split; [reflexivity |]. split; [reflexivity |]. split; [reflexivity |].
  pose proof (depth_tested_at_dispatch Demo.site (Demo.fresh 10000 0) 12
                eq_refl eq_refl) as (Hfetched & _ & _ & Henq).
  split; [exact Hfetched |].
  refine (proj1 (Henq (Demo.fresh 10000 0) Demo.home 0
                   (Demo.page "p1" :: _) _ _ (Demo.page "p1") [] []
                   _ _ _ _ _ _ _ _ _ _)).
  - apply not_elem_of_empty.
  - simpl. lia.
  - reflexivity.
  - reflexivity.
  - vm_compute. reflexivity.
  - left.
  - reflexivity.
  - intros k. reflexivity.
  - apply not_elem_of_empty.
  - discriminate.
Defined.

(** ** The scope of the crawl *)

Lemma is_valid_url_spec (w : World) (s : scraper) (u : string) :
  is_valid_url w s u = true ↔
  netloc w u = netloc w (base_url s)
  ∨ ∃ p, netloc w u = p +:+ netloc w (base_url s).
Proof.
  unfold is_valid_url.
  by rewrite orb_true_iff, String.eqb_eq, endswith_spec.
Qed.

(** C8, as stated, fails: a URL of the site on another port has the host
    of the base URL, and [is_valid_url] refuses it, because its netloc
    carries the port. *)
Lemma same_host_other_port_out_of_scope :
  let s := Demo.fresh 10000 20 in
  let u := "http://www.example.com:8080/" in
  Demo.host_of u = Demo.host_of (base_url s)
  ∧ netloc Demo.site u = "www.example.com:8080"
  ∧ netloc Demo.site (base_url s) = "www.example.com"
  ∧ is_valid_url Demo.site s u = false.
Proof. repeat split; reflexivity. Qed.

(** C8, amended.  [is_valid_url] holds exactly when the [netloc] of the
    URL (its authority: the host with any user information and port) equals
    that of the base URL or ends with it, compared as they are: no case
    folding, and neither the scheme nor the path is looked at.  Every entry
    of a batch or of the frontier, every page fetched and every visited URL
    satisfies it. *)
Theorem dispatched_urls_in_scope (w : World) (s : scraper) (n : nat) :
  visited_urls s = ∅ → trace s = [] →
  let c := crawl_steps w n (start_scraping s) in
  (∀ u, is_valid_url w s u = true ↔
        netloc w u = netloc w (base_url s)
        ∨ ∃ p, netloc w u = p +:+ netloc w (base_url s))
  ∧ Forall (λ e, is_valid_url w s e.1 = true) (batch c)
  ∧ Forall (λ e, is_valid_url w s e.1 = true) (to_visit c)
  ∧ Forall (λ e, is_valid_url w s e.1 = true) (fetched (trace (self c)))
  ∧ ∀ u, u ∈ visited_urls (self c) → is_valid_url w s u = true.
Proof.
  intros Hv Ht c. split; [apply is_valid_url_spec |].
  assert (frontier_invariant s (λ e, is_valid_url w s e.1 = true)
            (λ e, is_valid_url w s e.1 = true) c)
    as (_ & _ & Hb & Hq & Hf & Hvis).
  { apply (frontier_invariant_holds w); try done.
    - simpl. apply is_valid_url_spec. by left.
    - intros s1 s2 d e Hbase (_ & Hvalid & _).
      by rewrite <- (is_valid_url_base w s1 s). }
  repeat split; try done. intros u Hu. by destruct (Hvis u Hu).
Qed.

(** The comparison is a plain suffix test on the [netloc]: another case
    is out of scope, another scheme or path is in scope, and so is a host
    that merely ends with the base host. *)
Example scope_is_a_case_sensitive_suffix :
  let s := Demo.fresh 10000 20 in
  is_valid_url Demo.site s "http://WWW.EXAMPLE.COM/a" = false
  ∧ is_valid_url Demo.site s "https://www.example.com/a/b?c#d" = true
  ∧ is_valid_url Demo.site s "http://shop.www.example.com/" = true
  ∧ is_valid_url Demo.site s "http://notwww.example.com/" = true
  ∧ is_valid_url Demo.site s "http://example.com/" = false.
Proof. repeat split; reflexivity. Qed.

Lemma dispatched_urls_in_scope_witness :
  let s := Demo.fresh 10000 20 in
  let c := crawl_steps Demo.site 12 (start_scraping s) in
  visited_urls s = ∅ ∧ trace s = []
  ∧ Forall (λ e, is_valid_url Demo.site s e.1 = true)
           (fetched (trace (self c))).
Proof.
  split; [reflexivity |]. split; [reflexivity |].
  apply (dispatched_urls_in_scope Demo.site (Demo.fresh 10000 20) 12);
    reflexivity.
Defined.

(** ** Dead links *)

Section DeadLinks.
Context (w : World).

(** The loop over the anchors leaves the visited set alone. *)
Lemma process_links_visited (s : scraper) (url : string) (depth : Z)
    (hrefs : list string) (acc : list entry) :
  visited_urls (process_links w s url depth hrefs acc).1 = visited_urls s.
Proof.
  apply (process_links_keeps w (λ x, visited_urls x = visited_urls s));
    [|done].
  by split.
Qed.

(** It never removes a dead link that was recorded. *)
Lemma process_links_deadlinks (s : scraper) (url : string) (depth : Z)
    (hrefs : list string) (acc : list entry) (r : deadlink_record) :
  r ∈ deadlinks s → r ∈ deadlinks (process_links w s url depth hrefs acc).1.
Proof.
  apply (process_links_keeps w (λ x, r ∈ deadlinks x)).
  split; simpl; [done |].
  intros x u Hx _. apply elem_of_app. by left.
Qed.

(** An anchor in scope whose check reports it dead is recorded. *)
Lemma process_links_records_dead (s : scraper) (url : string) (depth : Z)
    (href : string) (rest : list string) (acc : list entry) :
  is_valid_url w s (urljoin w url href) = true →
  (check_link w s (urljoin w url href)).2 = Returns true →
  Deadlink url (urljoin w url href)
  ∈ deadlinks (process_links w s url depth (href :: rest) acc).1.
Proof.
  intros Hvalid Hdead. simpl. rewrite Hvalid.
  destruct (check_link w s (urljoin w url href)) as [s1 r].
  simpl in Hdead. subst r.
  apply process_links_deadlinks. simpl. apply elem_of_app. right. left.
Qed.
End DeadLinks.

(** C6, as stated, fails: at the end of the crawl of the demo site the page
    that answers 404 is recorded as a dead link and is not in the visited
    set. *)
Lemma dead_link_not_marked_visited :
  let c := crawl_steps Demo.site 12 (start_scraping (Demo.fresh 10000 20)) in
  crawl_step Demo.site c = None
  ∧ deadlinks (self c) = [Deadlink Demo.home (Demo.page "missing")]
  ∧ Demo.page "missing" ∉ visited_urls (self c).
Proof.
  split; [vm_compute; reflexivity |]. split; [vm_compute; reflexivity |].
  apply (bool_decide_eq_false_1 (Demo.page "missing" ∈ visited_urls _)).
  vm_compute. reflexivity.
Qed.

(** The seed is fetched even when the Link Validator reports it dead: here
    the home page answers 405 to HEAD, is recorded as a dead link of the page
    that links back to it, and was fetched as the seed. *)
Example dead_seed_is_fetched :
  let c := crawl_steps Demo.no_head 4 (start_scraping (Demo.fresh 10000 20)) in
  crawl_step Demo.no_head c = None
  ∧ deadlinks (self c) = [Deadlink (Demo.page "p1") Demo.home]
  ∧ fetched (trace (self c)) = [(Demo.page "p1", 1); (Demo.home, 0)].
Proof. repeat split; vm_compute; reflexivity. Qed.

(** C6, amended.  A URL that the Link Validator reports dead is not marked
    visited: the check leaves the visited set as it is and records the link
    in [deadlinks].  Only links whose check answered 200 are returned for
    the frontier, so a URL other than the seed that no check finds alive is
    never in a batch or in the frontier, never fetched and never visited. *)
Theorem dead_link_recorded_not_enqueued (w : World) (s : scraper) (n : nat)
    (u : string) :
  visited_urls s = ∅ → trace s = [] →
  u ≠ base_url s → (∀ k, http_head w k u ≠ HeadStatus 200) →
  let c := crawl_steps w n (start_scraping s) in
  (u ∉ visited_urls (self c))
  ∧ (∀ d, ((u, d) ∉ batch c) ∧ ((u, d) ∉ to_visit c)
          ∧ (u, d) ∉ fetched (trace (self c)))
  ∧ (∀ x url depth href rest acc,
       is_valid_url w x (urljoin w url href) = true →
       (check_link w x (urljoin w url href)).2 = Returns true →
       let r := process_links w x url depth (href :: rest) acc in
       Deadlink url (urljoin w url href) ∈ deadlinks r.1
       ∧ visited_urls r.1 = visited_urls x).
Proof.
  intros Hv Ht Hseed Hdead c.
  set (Q := λ e : entry,
         e.1 = base_url s ∨ ∃ k, http_head w k e.1 = HeadStatus 200).
  assert (frontier_invariant s Q Q c) as (_ & _ & Hb & Hq & Hf & Hvis).
  { apply (frontier_invariant_holds w); try done.
    - by left.
    - intros s1 s2 d e _ (_ & _ & _ & k & _ & Hk). right. by exists k. }
  assert (∀ d, ¬ Q (u, d)) as HnQ.
  { intros d [Heq | [k Hk]]; [done | by apply (Hdead k)]. }
  split; [|split].
  - intros Hu. destruct (Hvis u Hu) as [d Hd]. by apply (HnQ d).
  - intros d. repeat split; intros Hin; apply (HnQ d).
    + by apply (proj1 (Forall_forall _ _) Hb).
    + by apply (proj1 (Forall_forall _ _) Hq).
    + by apply (proj1 (Forall_forall _ _) Hf).
  - intros x url depth href rest acc Hvalid Hcheck r. split.
    + by apply process_links_records_dead.
    + apply process_links_visited.
Qed.

Lemma dead_link_recorded_not_enqueued_witness :
  let s := Demo.fresh 10000 20 in
  let c := crawl_steps Demo.site 12 (start_scraping s) in
  visited_urls s = ∅ ∧ trace s = [] ∧ Demo.page "missing" ≠ base_url s
  ∧ (∀ k, http_head Demo.site k (Demo.page "missing") ≠ HeadStatus 200)
  ∧ Demo.page "missing" ∉ visited_urls (self c).
Proof.
  split; [reflexivity |]. split; [reflexivity |].
  split; [discriminate |]. split; [intros k; discriminate |].
  apply (dead_link_recorded_not_enqueued Demo.site (Demo.fresh 10000 20) 12);
    [reflexivity | reflexivity | discriminate | intros k; discriminate].
Defined.

(** ** The Link Validator *)

(** C4.  [check_link] answers "dead" exactly when the HEAD request ends
    with a status other than 200 or raises a [RequestException], and "alive"
    exactly on a 200.  One request is made, and a link whose request raised
    is recorded among the dead links like any other dead link. *)
Theorem check_link_fail_closed (w : World) (s : scraper) (url : string) :
  let r := check_link w s url in
  (r.2 = Returns true ↔
     (∃ code, http_head w (tick s) url = HeadStatus code ∧ code ≠ 200)
     ∨ http_head w (tick s) url = HeadRequestException)
  ∧ (r.2 = Returns false ↔ http_head w (tick s) url = HeadStatus 200)
  ∧ trace r.1 = EvHead url :: trace s
  ∧ (∀ page depth href rest acc,
       http_head w (tick s) url = HeadRequestException →
       urljoin w page href = url → is_valid_url w s url = true →
       Deadlink page url
       ∈ deadlinks (process_links w s page depth (href :: rest) acc).1).
Proof.
  intros r. split; [apply check_link_dead |].
  split; [apply check_link_alive |]. split.
  - unfold r. by rewrite check_link_state.
  - intros page depth href rest acc Hhead <- Hvalid.
    apply process_links_records_dead; [done |].
    apply check_link_dead. by right.
Qed.

Lemma check_link_fail_closed_witness :
  let s := Demo.fresh 10000 20 in
  http_head Demo.site (tick s) (Demo.page "slow") = HeadRequestException
  ∧ is_valid_url Demo.site s (Demo.page "slow") = true
  ∧ Deadlink Demo.home (Demo.page "slow")
    ∈ deadlinks (process_links Demo.site s Demo.home 0
                   [Demo.page "slow"] []).1.
Proof.
  split; [reflexivity |]. split; [reflexivity |].
  apply (check_link_fail_closed Demo.site (Demo.fresh 10000 20)
           (Demo.page "slow")); reflexivity.
Defined.

(** ** The Rescan Gate *)

Section Gate.
Context (w : World).


(** What was fetched stays in the trace. *)
Lemma process_links_fetched (s : scraper) (url : string) (depth : Z)
    (hrefs : list string) (acc : list entry) (e : entry) :
  e ∈ fetched (trace s) →
  e ∈ fetched (trace (process_links w s url depth hrefs acc).1).
Proof.
  apply (process_links_keeps w (λ x, e ∈ fetched (trace x))). by split.
Qed.

End Gate.




(** A page scanned five days ago is skipped, a page scanned twenty days ago
    is not. *)
Example rescan_gate_five_and_twenty_days :
  (rescan_gate Demo.site (Demo.scanned_before (Demo.page "p1") 5)
     (Demo.page "p1") false).2 = true
  ∧ (rescan_gate Demo.site (Demo.scanned_before (Demo.page "p1") 20)
       (Demo.page "p1") false).2 = false.
Proof. split; reflexivity. Qed.

(** ** A page that cannot be downloaded *)

(** C7.  When [requests.get] raises for a page that passed the gate,
    [scrape_page] returns no links, the page is in the visited set, nothing
    else than the request is recorded, and the loop goes on with the rest of
    the batch and an unchanged frontier. *)
Theorem failed_fetch_visited_without_links (w : World) (s : scraper)
    (url : string) (depth : Z) (rest q : list entry) :
  url ∉ visited_urls s → depth ≤ max_depth s →
  let f := String.eqb url (base_url s) in
  let g := rescan_gate w (mark_visited url depth s) url f in
  g.2 = false → http_get w (tick g.1) url = GetRaises →
  let r := scrape_page w s url depth f in
  r.2 = [] ∧ url ∈ visited_urls r.1
  ∧ r.1 = observe [EvGet url depth] g.1
  ∧ crawl_step w (Crawl s ((url, depth) :: rest) q) = Some (Crawl r.1 rest q).
Proof.
  intros Hv Hd f g Hg Hget r.
  assert (r = (observe [EvGet url depth] g.1, [])) as Hr.
  { unfold r, scrape_page. rewrite (bool_decide_eq_false_2 _ Hv).
    apply Z.ltb_ge in Hd. rewrite Hd. simpl. fold g.
    destruct g as [s2 skip]. simpl in Hg, Hget. subst skip.
    by rewrite Hget. }
  split; [by rewrite Hr |]. split; [|split; [by rewrite Hr |]].
  - rewrite Hr. simpl.
    destruct (rescan_gate_frame w (mark_visited url depth s) url f)
      as (_ & Hvis & _). fold g in Hvis. rewrite Hvis. simpl.
    apply elem_of_union. left. by apply elem_of_singleton.
  - unfold crawl_step, dispatch. cbn [batch self to_visit fst snd].
    fold f. fold r. rewrite Hr. by rewrite app_nil_r.
Qed.

Lemma failed_fetch_visited_without_links_witness :
  let s := Demo.fresh 10000 20 in
  let url := Demo.page "down" in
  (url ∉ visited_urls s) ∧ 1 ≤ max_depth s
  ∧ (rescan_gate Demo.site (mark_visited url 1 s) url
       (String.eqb url (base_url s))).2 = false
  ∧ http_get Demo.site (tick s) url = GetRaises
  ∧ (scrape_page Demo.site s url 1 (String.eqb url (base_url s))).2 = []
  ∧ url ∈ visited_urls
            (scrape_page Demo.site s url 1 (String.eqb url (base_url s))).1.
Proof.
  assert (Demo.page "down" ∉ visited_urls (Demo.fresh 10000 20)) as Hv
    by apply not_elem_of_empty.
  assert (1 ≤ max_depth (Demo.fresh 10000 20)) as Hd by (simpl; lia).
  split; [exact Hv |]. split; [exact Hd |].
  split; [reflexivity |]. split; [reflexivity |].
  pose proof (failed_fetch_visited_without_links Demo.site
                (Demo.fresh 10000 20) (Demo.page "down") 1 [] [] Hv Hd
                eq_refl eq_refl) as (H1 & H2 & _).
  split; [exact H1 | exact H2].
Defined.

(** ** The accumulated dead links *)

Section Accumulator.
Context (w : World) (loaded : list deadlink_record).

Local Abbreviation accumulated := (accumulated w loaded).

Lemma accumulated_later (x y : scraper) :
  deadlinks y = deadlinks x → results_csv y = results_csv x →
  session_records (trace y) = session_records (trace x) →
  (tick x ≤ tick y)%nat →
  accumulated x → accumulated y.
Proof.
  intros Hd Hr Hs Ht (H1 & H2 & H3). unfold accumulated.
  rewrite Hd, Hr, Hs. split; [done |]. split; [done |].
  eapply Forall_impl; [exact H3 |]. intros r (k & Hk & Hhead).
  exists k. split; [lia | done].
Qed.

Lemma accumulated_kept (url : string) (depth : Z) :
  kept_by_updates w accumulated url depth.
Proof.
  split; [split |..].
  - intros x u. apply accumulated_later; simpl; (done || lia).
  - intros x u (H1 & H2 & H3) Hdead. unfold accumulated. simpl.
    rewrite H1, H2, H1, <- app_assoc. split; [done |]. split; [done |].
    apply Forall_app. split.
    + eapply Forall_impl; [exact H3 |]. intros r (k & Hk & Hhead).
      exists k. split; [lia | done].
    + constructor; [|done]. exists (tick x). split; [lia |]. simpl.
      apply check_link_dead in Hdead as [(code & -> & Hne) | ->];
        congruence.
  - intros x. apply accumulated_later; simpl; (done || lia).
  - intros x. apply accumulated_later; simpl; (done || lia).
  - intros x. apply accumulated_later; simpl; (done || lia).
  - intros x. apply accumulated_later; simpl; (done || lia).
Qed.

Lemma crawl_accumulated (s : scraper) (n : nat) :
  accumulated s → accumulated (self (crawl_steps w n (start_scraping s))).
Proof.
  intros Hs.
  apply (crawl_steps_invariant w (λ c, accumulated (self c))); [|done].
  intros c c' Hc Hstep.
  apply crawl_step_inv in Hstep as [(e & rest & _ & ->) | (_ & _ & _ & ->)];
    simpl; [|done].
  unfold dispatch. apply (scrape_page_keeps w accumulated); [|done].
  intros _ _. apply accumulated_kept.
Qed.
End Accumulator.

(** C9, as stated, fails: a scraper built on a drive folder that holds the
    dead link of an earlier run starts with that record in [deadlinks], and
    the status line counts it, before anything was checked. *)
Lemma accumulator_holds_earlier_results :
  let s := init Demo.home Demo.used_drive in
  trace s = [] ∧ deadlinks s = [Demo.old_record]
  ∧ deadlinks (self (start_scraping s)) ≠ []
  ∧ found (update_progress s "Queue size: 0") = 1%nat.
Proof. repeat split; done. Qed.

(** C9, amended.  [load_existing_results] puts the rows of the results file
    into [deadlinks] when the scraper is built.  At every point of the crawl
    [deadlinks] is these rows followed by the records saved during the
    crawl, each of them a link that a HEAD request of this crawl did not
    find alive; the results file holds the same rows, and the status line
    counts them all. *)
Theorem deadlinks_loaded_then_confirmed (w : World) (url : string) (d : drive)
    (n : nat) (message : string) :
  let s := init url d in
  let c := crawl_steps w n (start_scraping s) in
  let loaded := default [] (stored_results d) in
  deadlinks s = loaded
  ∧ deadlinks (self c) = loaded ++ session_records (trace (self c))
  ∧ results_csv (self c) = deadlinks (self c)
  ∧ found (update_progress (self c) message)
    = (length loaded + length (session_records (trace (self c))))%nat
  ∧ Forall (λ r, ∃ k, (k < tick (self c))%nat
                      ∧ http_head w k (deadlink r) ≠ HeadStatus 200)
           (session_records (trace (self c))).
Proof.
  intros s c loaded.
  assert (accumulated w loaded (self c)) as (H1 & H2 & H3).
  { apply crawl_accumulated. unfold accumulated, s, loaded. simpl.
    rewrite app_nil_r. by repeat split. }
  split; [done |]. split; [done |]. split; [done |]. split; [|done].
  unfold update_progress. simpl. by rewrite H1, length_app.
Qed.

(** ** The scan history *)

Section History.
Context (w : World).

Lemma last_scanned_updated (url : string) (now : Z) (df : list history_row) :
  in_history url df = true →
  last_scanned url
    (map (λ r : history_row,
            if String.eqb r.1 url then (r.1, now) else r) df) = Some now.
Proof.
  unfold in_history, last_scanned.
  induction df as [|[u t] df IH]; simpl; [done |].
  destruct (String.eqb u url) eqn:Hu; simpl; rewrite Hu; simpl; [done |].
  exact IH.
Qed.

Lemma last_scanned_appended (url : string) (now : Z) (df : list history_row) :
  in_history url df = false →
  last_scanned url (df ++ [(url, now)]) = Some now.
Proof.
  unfold in_history, last_scanned.
  induction df as [|[u t] df IH]; simpl.
  - by rewrite String.eqb_refl.
  - destruct (String.eqb u url); simpl; [done | exact IH].
Qed.

(** After [update_history] the history says the page was scanned now, and
    the file holds the history. *)
Lemma update_history_last_scanned (x : scraper) (url : string) :
  let x' := update_history w x url in
  last_scanned url (history_df x') = Some (clock w (tick x))
  ∧ history_csv x' = history_df x'
  ∧ trace x' = EvUpdateHistory url (clock w (tick x)) :: trace x.
Proof.
  unfold update_history. simpl. split; [|done].
  destruct (in_history url (history_df x)) eqn:Hin.
  - by apply last_scanned_updated.
  - by apply last_scanned_appended.
Qed.

(** The loop over the anchors does not touch the history. *)
Lemma process_links_history (s : scraper) (url : string) (depth : Z)
    (hrefs : list string) (acc : list entry) :
  let s' := (process_links w s url depth hrefs acc).1 in
  history_df s' = history_df s
  ∧ ∀ u, count_updates u (trace s') = count_updates u (trace s).
Proof.
  apply (process_links_keeps w
           (λ x, history_df x = history_df s
                 ∧ ∀ u, count_updates u (trace x) = count_updates u (trace s)));
    [|done].
  by split.
Qed.

(** One call of [scrape_page] either leaves the history alone, or it has
    fetched the page, which was not visited before, and ends with the one
    call of [update_history] it makes, for this page. *)
Lemma scrape_page_updates (s : scraper) (url : string) (depth : Z) (f : bool) :
  let s' := (scrape_page w s url depth f).1 in
  (history_df s' = history_df s
   ∧ ∀ u, count_updates u (trace s') = count_updates u (trace s))
  ∨ ((url ∉ visited_urls s) ∧ url ∈ visited_urls s'
     ∧ (url, depth) ∈ fetched (trace s')
     ∧ (∀ u, count_updates u (trace s')
             = ((if String.eqb url u then 1 else 0)
                + count_updates u (trace s))%nat)
     ∧ ∃ t rest, trace s' = EvUpdateHistory url t :: rest
                 ∧ last_scanned url (history_df s') = Some t
                 ∧ history_csv s' = history_df s').
Proof.
  unfold scrape_page.
  destruct (bool_decide (url ∈ visited_urls s)) eqn:Hv; simpl; [by left |].
  destruct (max_depth s <? depth); [by left |].
  apply bool_decide_eq_false in Hv.
  destruct (rescan_gate_frame w (mark_visited url depth s) url f)
    as (_ & Hvis & Hh & Ht & _).
  destruct (rescan_gate w (mark_visited url depth s) url f) as [s2 [|]];
    simpl in *; [left; by rewrite Hh, Ht |].
  destruct (http_get w (tick s2) url) as [hrefs|];
    [|left; simpl; by rewrite Hh, Ht].
  set (s3 := observe [EvGet url depth] s2).
  destruct (process_links_history s3 url depth hrefs []) as [Hh4 Hc4].
  pose proof (process_links_visited w s3 url depth hrefs []) as Hv4.
  pose proof (process_links_fetched w s3 url depth hrefs [] (url, depth))
    as Hf4.
  destruct (process_links w s3 url depth hrefs []) as [s4 [links|]];
    simpl in *; [|left; split; [congruence |]].
  - right. split; [done |]. split; [|split; [|split]].
    + rewrite Hv4, Hvis. apply elem_of_union. left. by apply elem_of_singleton.
    + apply Hf4. left.
    + intros u. by rewrite Hc4, Ht.
    + destruct (update_history_last_scanned s4 url) as (Hl & Hcsv & Htr).
      by exists (clock w (tick s4)), (trace s4).
  - intros u. by rewrite Hc4, Ht.
Qed.

Lemma scrape_page_fetched (s : scraper) (url : string) (depth : Z) (f : bool)
    (e : entry) :
  e ∈ fetched (trace s) → e ∈ fetched (trace (scrape_page w s url depth f).1).
Proof.
  apply (scrape_page_keeps w (λ x, e ∈ fetched (trace x))).
  intros _ _. split; [split |..]; try done.
  intros x Hx. simpl. by right.
Qed.

(** Over a crawl, [update_history] runs at most once for a URL, and only
    for a URL that was fetched. *)
Lemma crawl_updates_once (s : scraper) (n : nat) (u : string) :
  trace s = [] →
  let c := crawl_steps w n (start_scraping s) in
  (count_updates u (trace (self c)) ≤ 1)%nat
  ∧ ((1 ≤ count_updates u (trace (self c)))%nat →
     u ∈ visited_urls (self c) ∧ ∃ d, (u, d) ∈ fetched (trace (self c))).
Proof.
  intros Ht.
  apply (crawl_steps_invariant w
           (λ c, (count_updates u (trace (self c)) ≤ 1)%nat
                 ∧ ((1 ≤ count_updates u (trace (self c)))%nat →
                    u ∈ visited_urls (self c)
                    ∧ ∃ d, (u, d) ∈ fetched (trace (self c)))));
    [|simpl; rewrite Ht; simpl; split; lia].
  intros c c' [Hle Hin] Hstep.
  apply crawl_step_inv in Hstep as [(e & rest & _ & ->) | (_ & _ & _ & ->)];
    simpl; [|done].
  destruct e as [url depth]. unfold dispatch. simpl.
  set (f := String.eqb url (base_url (self c))).
  destruct (scrape_page_updates (self c) url depth f)
    as [[_ Hsame] | (Hnv & Hv' & Hf' & Hcount & _)].
  - rewrite Hsame. split; [done |]. intros H1.
    destruct (Hin H1) as [Hv [d Hd]]. split.
    + by apply scrape_page_visited_mono.
    + exists d. by apply scrape_page_fetched.
  - rewrite Hcount. destruct (String.eqb_spec url u) as [-> | Hne].
    + assert (count_updates u (trace (self c)) = 0%nat) as ->.
      { destruct (count_updates u (trace (self c))) as [|k]; [done |].
        destruct Hin as [Hv _]; [lia | done]. }
      split; [lia |]. intros _. split; [done | by exists depth].
    + simpl. split; [done |]. intros H1.
      destruct (Hin H1) as [Hv [d Hd]]. split.
      * by apply scrape_page_visited_mono.
      * exists d. by apply scrape_page_fetched.
Qed.
End History.

(** C5, as stated, fails: in the crawl of the demo site the page whose
    download fails passes the gate and is requested, and [update_history]
    is never called for it. *)
Lemma failed_fetch_leaves_history_alone :
  let s := Demo.fresh 10000 20 in
  let c := crawl_steps Demo.site 12 (start_scraping s) in
  crawl_step Demo.site c = None
  ∧ (Demo.page "down", 1) ∈ fetched (trace (self c))
  ∧ (∀ k, http_get Demo.site k (Demo.page "down") = GetRaises)
  ∧ count_updates (Demo.page "down") (trace (self c)) = 0%nat
  ∧ last_scanned (Demo.page "down") (history_df (self c)) = None.
Proof.
  split; [vm_compute; reflexivity |]. split.
  - apply (bool_decide_eq_true_1 ((Demo.page "down", 1) ∈ fetched _)).
    vm_compute. reflexivity.
  - split; [intros k; reflexivity |]. split; vm_compute; reflexivity.
Qed.

(** C5, amended.  [update_history] is the last thing [scrape_page] does when
    the page was downloaded and all its links were processed: it is then
    called once, for that page, and the history holds the time of the call.
    It is not called when the download raises, nor for a page the Rescan
    Gate skips.  Over a crawl it is called at most once for a URL, and only
    for a URL that was fetched. *)
Theorem history_updated_after_completed_scan (w : World) (s0 : scraper)
    (n : nat) (x : scraper) (url : string) (depth : Z) (f : bool) :
  trace s0 = [] →
  let c := crawl_steps w n (start_scraping s0) in
  let g := rescan_gate w (mark_visited url depth x) url f in
  let x' := (scrape_page w x url depth f).1 in
  (∀ u, (count_updates u (trace (self c)) ≤ 1)%nat
        ∧ ((1 ≤ count_updates u (trace (self c)))%nat →
           ∃ d, (u, d) ∈ fetched (trace (self c))))
  ∧ (url ∉ visited_urls x → depth ≤ max_depth x → g.2 = true →
     history_df x' = history_df x ∧ trace x' = trace x)
  ∧ (url ∉ visited_urls x → depth ≤ max_depth x → g.2 = false →
     http_get w (tick g.1) url = GetRaises →
     history_df x' = history_df x
     ∧ ∀ u, count_updates u (trace x') = count_updates u (trace x))
  ∧ (url ∉ visited_urls x → depth ≤ max_depth x → g.2 = false →
     ∀ hrefs s4 links,
       http_get w (tick g.1) url = GetOk hrefs →
       process_links w (observe [EvGet url depth] g.1) url depth hrefs []
       = (s4, Returns links) →
       x' = update_history w s4 url
       ∧ count_updates url (trace x') = S (count_updates url (trace x))
       ∧ trace x' = EvUpdateHistory url (clock w (tick s4)) :: trace s4
       ∧ last_scanned url (history_df x') = Some (clock w (tick s4))).
Proof.
  intros Ht c g x'. split.
  { intros u. destruct (crawl_updates_once w s0 n u Ht) as [Hle Hin].
    split; [done |]. intros H1. by destruct (Hin H1). }
  assert (url ∉ visited_urls x → depth ≤ max_depth x →
          scrape_page w x url depth f
          = match g with
            | (s2, true) => (s2, [])
            | (s2, false) =>
                match http_get w (tick s2) url with
                | GetRaises => (observe [EvGet url depth] s2, [])
                | GetOk hrefs =>
                    match process_links w (observe [EvGet url depth] s2)
                            url depth hrefs [] with
                    | (s4, Raises) => (s4, [])
                    | (s4, Returns links) => (update_history w s4 url, links)
                    end
                end
            end) as Hcall.
  { intros Hv Hd. unfold scrape_page. rewrite (bool_decide_eq_false_2 _ Hv).
    apply Z.ltb_ge in Hd. by rewrite Hd. }
  destruct (rescan_gate_frame w (mark_visited url depth x) url f)
    as (_ & _ & Hh & Htr & _). fold g in Hh, Htr.
  split; [|split].
  - intros Hv Hd Hg. unfold x'. rewrite (Hcall Hv Hd).
    destruct g as [s2 skip]. simpl in *. subst skip. simpl. done.
  - intros Hv Hd Hg Hget. unfold x'. rewrite (Hcall Hv Hd).
    destruct g as [s2 skip]. simpl in *. subst skip. rewrite Hget. simpl.
    split; [done |]. intros u. by rewrite Htr.
  - intros Hv Hd Hg hrefs s4 links Hget Hlinks. unfold x'.
    rewrite (Hcall Hv Hd).
    destruct (process_links_history w (observe [EvGet url depth] g.1) url
                depth hrefs []) as [_ Hc4].
    destruct g as [s2 skip]. simpl in *. subst skip.
    rewrite Hget, Hlinks. rewrite Hlinks in Hc4. simpl in *.
    destruct (update_history_last_scanned w s4 url) as (Hl & _ & Htr4).
    split; [done |]. split; [|split; [done | done]].
    rewrite String.eqb_refl, Hc4, Htr. done.
Qed.

Lemma history_updated_after_completed_scan_witness :
  let s := Demo.fresh 10000 20 in
  let c := crawl_steps Demo.site 12 (start_scraping s) in
  trace s = []
  ∧ (count_updates Demo.home (trace (self c)) ≤ 1)%nat.
Proof.
  split; [reflexivity |].
  apply (history_updated_after_completed_scan Demo.site (Demo.fresh 10000 20)
           12 (Demo.fresh 10000 20) Demo.home 0 true eq_refl).
Defined.

(** ** The effects of one scan, in order *)

Lemma fetched_app (tr1 tr2 : list event) :
  fetched (tr1 ++ tr2) = fetched tr1 ++ fetched tr2.
Proof.
  induction tr1 as [|[u d|u|r|u t] tr1 IH]; simpl; by rewrite ?IH.
Qed.

Lemma heads_app (tr1 tr2 : list event) :
  heads (tr1 ++ tr2) = heads tr1 ++ heads tr2.
Proof.
  induction tr1 as [|[u d|u|r|u t] tr1 IH]; simpl; by rewrite ?IH.
Qed.

Lemma session_records_app (tr1 tr2 : list event) :
  session_records (tr1 ++ tr2) = session_records tr2 ++ session_records tr1.
Proof.
  induction tr1 as [|[u d|u|r|u t] tr1 IH]; simpl;
    rewrite ?app_nil_r, ?IH, ?app_assoc; done.
Qed.

Section Shape.
Context (w : World).

Lemma page_event_base (s1 s2 : scraper) (url : string) (e : event) :
  base_url s1 = base_url s2 → page_event w s1 url e → page_event w s2 url e.
Proof.
  intros Hb. destruct e as [u d|u|r|u t]; simpl; try done;
    by rewrite (is_valid_url_base w s1 s2).
Qed.

Lemma page_events_fetched (s : scraper) (url : string) (evs : list event) :
  Forall (page_event w s url) evs → fetched evs = [].
Proof.
  induction 1 as [|[u d|u|r|u t] evs He _ IH]; simpl; done.
Qed.

Lemma page_events_heads (s : scraper) (url : string) (evs : list event) :
  Forall (page_event w s url) evs →
  Forall (λ u, is_valid_url w s u = true) (heads evs).
Proof.
  induction 1 as [|[u d|u|r|u t] evs He _ IH]; simpl; try done.
  by constructor.
Qed.

Lemma page_events_records (s : scraper) (url : string) (evs : list event) :
  Forall (page_event w s url) evs →
  Forall (λ r, source r = url ∧ is_valid_url w s (deadlink r) = true)
         (session_records evs).
Proof.
  induction 1 as [|[u d|u|r|u t] evs He _ IH]; simpl; try done.
  apply Forall_app. split; [done | by constructor].
Qed.

(** The loop over the anchors only makes HEAD requests for links in scope
    and only records dead links of the page, in scope. *)
Lemma process_links_trace (url : string) (depth : Z) (hrefs : list string) :
  ∀ s acc,
    ∃ evs, trace (process_links w s url depth hrefs acc).1 = evs ++ trace s
           ∧ Forall (page_event w s url) evs.
Proof.
  induction hrefs as [|href rest IH]; intros s acc; simpl.
  - by exists [].
  - destruct (is_valid_url w s (urljoin w url href)) eqn:Hvalid; [|apply IH].
    pose proof (check_link_state w s (urljoin w url href)) as Hst.
    destruct (check_link w s (urljoin w url href)) as [s1 [[|]|]];
      simpl in Hst; subst s1.
    + match goal with
      | |- context [process_links w ?x url depth rest acc] =>
          destruct (IH x acc) as (evs & -> & Hevs)
      end.
      exists (evs ++ [EvSaveResult (Deadlink url (urljoin w url href));
                      EvHead (urljoin w url href)]).
      split; [by rewrite <- app_assoc |].
      apply Forall_app. split.
      * eapply Forall_impl; [exact Hevs |]. intros e. by apply page_event_base.
      * repeat constructor; done.
    + assert (∀ acc', ∃ evs,
                 trace (process_links w (observe [EvHead (urljoin w url href)] s)
                          url depth rest acc').1 = evs ++ trace s
                 ∧ Forall (page_event w s url) evs) as Hboth.
      { intros acc'.
        destruct (IH (observe [EvHead (urljoin w url href)] s) acc')
          as (evs & -> & Hevs).
        exists (evs ++ [EvHead (urljoin w url href)]).
        split; [by rewrite <- app_assoc |].
        apply Forall_app. split.
        - eapply Forall_impl; [exact Hevs |]. intros e.
          by apply page_event_base.
        - by repeat constructor. }
      destruct (decide _); apply Hboth.
    + exists [EvHead (urljoin w url href)]. split; [done |].
      by repeat constructor.
Qed.

Lemma process_links_frame (s : scraper) (url : string) (depth : Z)
    (hrefs : list string) (acc : list entry) :
  let s' := (process_links w s url depth hrefs acc).1 in
  base_url s' = base_url s ∧ current_depth s' = current_depth s
  ∧ visited_urls s' = visited_urls s.
Proof.
  apply (process_links_keeps w
           (λ x, base_url x = base_url s ∧ current_depth x = current_depth s
                 ∧ visited_urls x = visited_urls s)); [|done].
  by split.
Qed.

Lemma rescan_gate_current_depth (s : scraper) (url : string) (f : bool) :
  current_depth (rescan_gate w s url f).1 = current_depth s.
Proof.
  unfold rescan_gate.
  destruct (negb f && in_history url (history_df s)); [|done].
  by destruct (last_scanned url (history_df s)).
Qed.

(** The three ways a call of [scrape_page] can go: the entry is dropped and
    nothing changes; the page is marked visited and skipped by the gate,
    without any request; or the page is marked visited and downloaded, and
    what follows the download are effects of this page. *)
Lemma scrape_page_cases (s : scraper) (url : string) (depth : Z) (f : bool) :
  let r := scrape_page w s url depth f in
  r = (s, [])
  ∨ ((url ∉ visited_urls s) ∧ depth ≤ max_depth s
     ∧ visited_urls r.1 = {[url]} ∪ visited_urls s
     ∧ current_depth r.1 = Z.max (current_depth s) depth
     ∧ ((trace r.1 = trace s ∧ r.2 = [] ∧ history_df r.1 = history_df s)
        ∨ ∃ evs, trace r.1 = evs ++ EvGet url depth :: trace s
                 ∧ Forall (page_event w s url) evs)).
Proof.
  unfold scrape_page.
  destruct (bool_decide (url ∈ visited_urls s)) eqn:Hv; simpl; [by left |].
  destruct (max_depth s <? depth) eqn:Hd; [by left |].
  apply bool_decide_eq_false in Hv. apply Z.ltb_ge in Hd. right.
  split; [done |]. split; [done |].
  destruct (rescan_gate_frame w (mark_visited url depth s) url f)
    as (Hb & Hvis & Hh & Ht & _).
  pose proof (rescan_gate_current_depth (mark_visited url depth s) url f)
    as Hc2.
  destruct (rescan_gate w (mark_visited url depth s) url f) as [s2 [|]];
    simpl in *.
  - split; [done |]. split; [done |]. left. by rewrite Ht, Hh.
  - destruct (http_get w (tick s2) url) as [hrefs|]; simpl.
    + set (s3 := observe [EvGet url depth] s2).
      destruct (process_links_frame s3 url depth hrefs []) as (Hb4 & Hc4 & Hv4).
      destruct (process_links_trace url depth hrefs s3 []) as (evs & Ht4 & Hevs).
      assert (Forall (page_event w s url) evs) as Hevs'.
      { eapply Forall_impl; [exact Hevs |]. intros e.
        apply page_event_base. by rewrite <- Hb. }
      destruct (process_links w s3 url depth hrefs []) as [s4 [links|]];
        simpl in *.
      * split; [by rewrite Hv4 |]. split; [by rewrite Hc4 |]. right.
        exists (EvUpdateHistory url (clock w (tick s4)) :: evs).
        split; [by rewrite Ht4, Ht |]. by constructor.
      * split; [by rewrite Hv4 |]. split; [by rewrite Hc4 |]. right.
        exists evs. split; [by rewrite Ht4, Ht | done].
    + split; [done |]. split; [done |]. right. exists [].
      split; [by rewrite Ht | done].
Qed.
End Shape.

(** ** The crawl ends *)

Section Termination.
Context (w : World).

Lemma crawl_steps_halted (c : crawl) (n : nat) :
  crawl_step w c = None → crawl_steps w n c = c.
Proof. intros H. destruct n; simpl; [done | by rewrite H]. Qed.

Lemma crawl_steps_add (n k : nat) (c : crawl) :
  crawl_steps w (n + k) c = crawl_steps w k (crawl_steps w n c).
Proof.
  revert c. induction n as [|n IH]; intros c; simpl; [done |].
  destruct (crawl_step w c) as [c'|] eqn:Hc; [apply IH |].
  by rewrite crawl_steps_halted.
Qed.

(** A step either visits a new page, or leaves the visited set alone and
    handles an entry. *)
Lemma crawl_step_decreases (B : Z) (c c' : crawl) :
  max_pages (self c) + 9 ≤ B →
  Z.of_nat (size (visited_urls (self c))) + Z.of_nat (length (batch c)) ≤ B →
  crawl_step w c = Some c' →
  (max_pages (self c') = max_pages (self c)
   ∧ Z.of_nat (size (visited_urls (self c'))) + Z.of_nat (length (batch c'))
     ≤ B)
  ∧ ((slack B c' < slack B c)%nat
     ∨ (slack B c' = slack B c ∧ (pending c' < pending c)%nat)).
Proof.
  intros HB Hinv Hstep. unfold slack, pending.
  apply crawl_step_inv in Hstep
    as [(e & rest & He & ->) | (_ & Hq & Hlt & ->)]; simpl.
  - rewrite He in Hinv. simpl in Hinv.
    destruct (dispatch_config w (self c) e) as (_ & -> & _).
    unfold dispatch.
    set (f := String.eqb e.1 (base_url (self c))).
    destruct (scrape_page_cases w (self c) e.1 e.2 f)
      as [-> | (Hv & _ & Hvis & _)]; simpl.
    + split; [split; [done | lia] |]. right.
      rewrite He, app_nil_r. simpl. split; [done | lia].
    + rewrite Hvis. rewrite size_union, size_singleton.
      * split; [split; [done | lia] |]. left. lia.
      * intros x Hx1 Hx2. apply elem_of_singleton in Hx1 as ->. done.
  - rewrite length_take, length_drop.
    assert (length (to_visit c) ≠ 0%nat) by (by destruct (to_visit c)).
    split; [split; [done | lia] |]. right. split; [done | lia].
Qed.

Lemma crawl_terminates_from (B : Z) :
  ∀ a b c,
    max_pages (self c) + 9 ≤ B →
    Z.of_nat (size (visited_urls (self c))) + Z.of_nat (length (batch c)) ≤ B →
    slack B c = a → pending c = b →
    ∃ n, crawl_step w (crawl_steps w n c) = None.
Proof.
  induction a as [a IHa] using lt_wf_ind.
  induction b as [b IHb] using lt_wf_ind.
  intros c HB Hinv Ha Hb.
  destruct (crawl_step w c) as [c'|] eqn:Hstep; [|by exists 0%nat].
  destruct (crawl_step_decreases B c c' HB Hinv Hstep)
    as [[Hmax Hinv'] [Hlt | [Heq Hlt]]].
  - destruct (IHa (slack B c') ltac:(lia) (pending c') c') as [n Hn];
      try done; [by rewrite Hmax |].
    exists (S n). simpl. by rewrite Hstep.
  - destruct (IHb (pending c') ltac:(lia) c') as [n Hn];
      try done; [by rewrite Hmax | lia |].
    exists (S n). simpl. by rewrite Hstep.
Qed.
End Termination.

(** X1.  On every site, from every scraper, the loop of [start_scraping]
    ends after finitely many steps, and it ends between two batches, with
    an empty frontier or with the page ceiling reached. *)
Theorem start_scraping_terminates (w : World) (s : scraper) :
  ∃ n, let c := crawl_steps w n (start_scraping s) in
       crawl_step w c = None
       ∧ batch c = []
       ∧ (to_visit c = []
          ∨ max_pages s ≤ Z.of_nat (size (visited_urls (self c))))
       ∧ ∀ m, (n ≤ m)%nat → crawl_steps w m (start_scraping s) = c.
Proof.
  set (B := Z.max (Z.of_nat (size (visited_urls s))) (max_pages s + 9)).
  destruct (crawl_terminates_from w B (slack B (start_scraping s))
              (pending (start_scraping s)) (start_scraping s)) as [n Hn];
    try done; [simpl; lia | simpl; lia |].
  exists n. intros c. fold c in Hn. split; [done |].
  destruct (crawl_config w s n) as (_ & Hmax & _). fold c in Hmax.
  assert (batch c = []
          ∧ (to_visit c = []
             ∨ max_pages s ≤ Z.of_nat (size (visited_urls (self c))))) as [? ?].
  { unfold crawl_step in Hn. destruct (batch c) as [|e rest].
    - split; [done |]. destruct (to_visit c); [by left |]. right.
      destruct (Z.ltb_spec (Z.of_nat (size (visited_urls (self c))))
                  (max_pages (self c))); [done | lia].
    - by destruct (dispatch w (self c) e). }
  split; [done |]. split; [done |].
  intros m Hm. replace m with (n + (m - n))%nat by lia.
  rewrite crawl_steps_add. fold c. by apply crawl_steps_halted.
Qed.

(** ** What the trace of a crawl looks like *)

Section Trace.
Context (w : World).

(** The four kinds of step of the loop: an entry is dropped; a page is
    marked visited and skipped; a page is marked visited and downloaded; a
    batch is cut. *)
Lemma crawl_step_cases (c c' : crawl) :
  crawl_step w c = Some c' →
  base_url (self c') = base_url (self c)
  ∧ max_depth (self c') = max_depth (self c)
  ∧ ((∃ e, batch c = e :: batch c' ∧ self c' = self c
           ∧ to_visit c' = to_visit c)
     ∨ (∃ url depth, batch c = (url, depth) :: batch c'
          ∧ (url ∉ visited_urls (self c)) ∧ depth ≤ max_depth (self c)
          ∧ visited_urls (self c') = {[url]} ∪ visited_urls (self c)
          ∧ current_depth (self c') = Z.max (current_depth (self c)) depth
          ∧ ((trace (self c') = trace (self c) ∧ to_visit c' = to_visit c
              ∧ history_df (self c') = history_df (self c))
             ∨ ∃ evs links,
                 trace (self c') = evs ++ EvGet url depth :: trace (self c)
                 ∧ Forall (page_event w (self c) url) evs
                 ∧ to_visit c' = to_visit c ++ links
                 ∧ Forall (λ e, discovered w (self c) (self c') depth e
                                ∧ e.1 ≠ url) links))
     ∨ (batch c = [] ∧ self c' = self c
        ∧ batch c' ++ to_visit c' = to_visit c)).
Proof.
  intros Hstep.
  apply crawl_step_inv in Hstep
    as [(e & rest & He & ->) | (Hb & _ & _ & ->)]; simpl.
  - destruct (dispatch_config w (self c) e) as (-> & _ & ->).
    split; [done |]. split; [done |].
    destruct e as [url depth]. unfold dispatch. simpl.
    set (f := String.eqb url (base_url (self c))).
    pose proof (scrape_page_links w (self c) url depth f) as Hlinks.
    destruct (scrape_page_cases w (self c) url depth f)
      as [Heq | (Hv & Hd & Hvis & Hcur & [(Ht & Hl & Hh) | (evs & Ht & Hevs)])].
    + left. exists (url, depth). rewrite Heq. simpl.
      by rewrite app_nil_r.
    + right. left. exists url, depth. repeat (split; [done |]). left.
      rewrite Hl, app_nil_r. done.
    + right. left. exists url, depth. repeat (split; [done |]). right.
      by exists evs, (scrape_page w (self c) url depth f).2.
  - split; [done |]. split; [done |]. right. right.
    split; [done |]. split; [done |]. apply take_drop.
Qed.

(** A page is downloaded at most once, and only after it was marked
    visited. *)
Lemma crawl_fetched_once (s : scraper) (n : nat) :
  trace s = [] →
  let c := crawl_steps w n (start_scraping s) in
  NoDup (fetched (trace (self c))).*1
  ∧ ∀ e, e ∈ fetched (trace (self c)) → e.1 ∈ visited_urls (self c).
Proof.
  intros Ht.
  apply (crawl_steps_invariant w
           (λ c, NoDup (fetched (trace (self c))).*1
                 ∧ ∀ e, e ∈ fetched (trace (self c))
                        → e.1 ∈ visited_urls (self c))).
  - intros c c' [Hnd Hin] Hstep.
    destruct (crawl_step_cases c c' Hstep)
      as (_ & _ & [(e & _ & -> & _)
                  | [(url & depth & _ & Hv & _ & Hvis & _ & Hcase)
                    | (_ & -> & _)]]); try done.
    rewrite Hvis.
    destruct Hcase as [(-> & _) | (evs & links & -> & Hevs & _)].
    + split; [done |]. intros e He. apply elem_of_union. right. by apply Hin.
    + rewrite fetched_app, (page_events_fetched w _ _ _ Hevs). simpl. split.
      * apply NoDup_cons. split; [|done].
        intros Hurl. apply list_elem_of_fmap in Hurl as ([u d] & -> & He).
        by apply Hv, (Hin (u, d)).
      * intros e He. apply elem_of_union.
        apply elem_of_cons in He as [-> | He]; [left | right; by apply Hin].
        by apply elem_of_singleton.
  - simpl. rewrite Ht. simpl. split; [constructor |].
    intros e He. by apply elem_of_nil in He.
Qed.
End Trace.

(** X2.  In a crawl no page is downloaded twice, and every downloaded page
    is in the visited set; so a crawl started with an empty visited set
    downloads at most [max_pages + 9] pages. *)
Theorem pages_fetched_at_most_once (w : World) (s : scraper) (n : nat) :
  visited_urls s = ∅ → trace s = [] → 0 ≤ max_pages s →
  let c := crawl_steps w n (start_scraping s) in
  NoDup (fetched (trace (self c))).*1
  ∧ (∀ e, e ∈ fetched (trace (self c)) → e.1 ∈ visited_urls (self c))
  ∧ (length (fetched (trace (self c))) ≤ size (visited_urls (self c)))%nat
  ∧ Z.of_nat (length (fetched (trace (self c)))) ≤ max_pages s + 9.
Proof.
  intros Hv Ht Hp c.
  destruct (crawl_fetched_once w s n Ht) as [Hnd Hin]. fold c in Hnd, Hin.
  split; [done |]. split; [done |].
  assert (length (fetched (trace (self c))) ≤ size (visited_urls (self c)))%nat
    as Hlen.
  { assert (size (list_to_set (C := gset string)
                     (fetched (trace (self c))).*1)
            = length (fetched (trace (self c)))) as <-
      by (rewrite size_list_to_set by done; apply length_fmap).
    apply subseteq_size. intros u Hu.
    apply elem_of_list_to_set, list_elem_of_fmap in Hu as (e & -> & He).
    by apply Hin. }
  split; [done |].
  destruct (crawl_visited_bound w s n) as [Hb _]. fold c in Hb.
  rewrite Hv, size_empty in Hb. lia.
Qed.

Lemma pages_fetched_at_most_once_witness :
  let s := Demo.fresh 2 20 in
  let c := crawl_steps Demo.site 9 (start_scraping s) in
  visited_urls s = ∅ ∧ trace s = [] ∧ 0 ≤ max_pages s
  ∧ Z.of_nat (length (fetched (trace (self c)))) ≤ max_pages s + 9.
Proof.
  split; [reflexivity |]. split; [reflexivity |]. split; [simpl; lia |].
  apply (pages_fetched_at_most_once Demo.site (Demo.fresh 2 20) 9);
    [reflexivity | reflexivity | simpl; lia].
Defined.

(** X3.  Every HEAD request of a crawl is for a URL in scope, so a link to
    another site is never checked; and every dead link recorded during the
    crawl is a URL in scope found on a page downloaded during the crawl. *)
Theorem only_links_in_scope_are_checked (w : World) (s : scraper) (n : nat) :
  trace s = [] →
  let c := crawl_steps w n (start_scraping s) in
  Forall (λ u, is_valid_url w s u = true) (heads (trace (self c)))
  ∧ Forall (λ r, is_valid_url w s (deadlink r) = true
                 ∧ ∃ d, (source r, d) ∈ fetched (trace (self c)))
           (session_records (trace (self c))).
Proof.
  intros Ht c.
  assert (base_url (self c) = base_url s
          ∧ Forall (λ u, is_valid_url w s u = true) (heads (trace (self c)))
          ∧ Forall (λ r, is_valid_url w s (deadlink r) = true
                         ∧ ∃ d, (source r, d) ∈ fetched (trace (self c)))
                   (session_records (trace (self c)))) as (_ & ? & ?);
    [|done].
  apply (crawl_steps_invariant w
           (λ c, base_url (self c) = base_url s
                 ∧ Forall (λ u, is_valid_url w s u = true)
                          (heads (trace (self c)))
                 ∧ Forall (λ r, is_valid_url w s (deadlink r) = true
                                ∧ ∃ d, (source r, d) ∈ fetched (trace (self c)))
                          (session_records (trace (self c)))));
    [|simpl; rewrite Ht; by repeat split].
  clear c. intros c c' (Hb & Hh & Hr) Hstep.
  destruct (crawl_step_cases w c c' Hstep)
    as (Hb' & _ & [(e & _ & Hs & _)
                  | [(url & depth & _ & _ & _ & _ & _ & Hcase)
                    | (_ & Hs & _)]]);
    rewrite Hb'; (split; [done |]); try (by rewrite Hs).
  destruct Hcase as [(-> & _) | (evs & links & -> & Hevs & _)]; [done |].
  rewrite heads_app, session_records_app, fetched_app,
    (page_events_fetched w _ _ _ Hevs). simpl.
  split; apply Forall_app; split.
  - eapply Forall_impl; [exact (page_events_heads w _ _ _ Hevs) |].
    intros u Hu. simpl in Hu. by rewrite <- (is_valid_url_base w (self c) s).
  - done.
  - eapply Forall_impl; [exact Hr |].
    intros r [Hvalid [d Hd]]. split; [done |]. exists d. by right.
  - eapply Forall_impl; [exact (page_events_records w _ _ _ Hevs) |].
    intros r [-> Hvalid]. split.
    + by rewrite <- (is_valid_url_base w (self c) s).
    + exists depth. left.
Qed.

Lemma only_links_in_scope_are_checked_witness :
  let s := Demo.fresh 10000 20 in
  let c := crawl_steps Demo.site 12 (start_scraping s) in
  trace s = []
  ∧ Forall (λ u, is_valid_url Demo.site s u = true) (heads (trace (self c))).
Proof.
  split; [reflexivity |].
  apply (only_links_in_scope_are_checked Demo.site (Demo.fresh 10000 20) 12
           eq_refl).
Defined.

(** X4.  The depth of an entry is a number of links from the seed: the seed
    is the only entry of depth 0, and any other entry of a batch, of the
    frontier or of the downloaded pages has a depth one more than that of a
    page that was downloaded before it was found. *)
Theorem depth_counts_links_from_seed (w : World) (s : scraper) (n : nat)
    (e : entry) :
  trace s = [] →
  let c := crawl_steps w n (start_scraping s) in
  e ∈ batch c ∨ e ∈ to_visit c ∨ e ∈ fetched (trace (self c)) →
  e = (base_url s, 0)
  ∨ (0 < e.2 ∧ ∃ p, (p, e.2 - 1) ∈ fetched (trace (self c))).
Proof.
  intros Ht c. revert e.
  apply (crawl_steps_invariant w
           (λ c, ∀ e, e ∈ batch c ∨ e ∈ to_visit c
                      ∨ e ∈ fetched (trace (self c)) →
                      e = (base_url s, 0)
                      ∨ (0 < e.2
                         ∧ ∃ p, (p, e.2 - 1) ∈ fetched (trace (self c))))).
  - clear c. intros c c' Hc Hstep e.
    destruct (crawl_step_cases w c c' Hstep)
      as (_ & _ & [(e0 & Hbatch & -> & ->)
                  | [(url & depth & Hbatch & _ & _ & _ & _ & Hcase)
                    | (Hbatch & -> & Hcut)]]).
    + intros [He | He]; apply Hc; [left | by right].
      rewrite Hbatch. by right.
    + assert (∀ e, e ∈ batch c' → e ∈ batch c) as Hsub
        by (intros x Hx; rewrite Hbatch; by right).
      destruct Hcase as [(-> & -> & _) | (evs & links & -> & Hevs & -> & Hl)].
      * intros [He | He]; apply Hc; [left; by apply Hsub | by right].
      * rewrite fetched_app, (page_events_fetched w _ _ _ Hevs). simpl.
        assert (∀ x, x = (base_url s, 0)
                     ∨ (0 < x.2
                        ∧ ∃ p, (p, x.2 - 1) ∈ fetched (trace (self c))) →
                     x = (base_url s, 0)
                     ∨ (0 < x.2
                        ∧ ∃ p, (p, x.2 - 1)
                               ∈ (url, depth) :: fetched (trace (self c))))
          as Hmono.
        { intros x [-> | (Hpos & p & Hp)]; [by left | right].
          split; [done |]. exists p. by right. }
        assert (0 ≤ depth) as Hdepth.
        { destruct (Hc (url, depth)) as [[= _ ->] | [Hpos _]];
            [left; rewrite Hbatch; left | done | simpl in Hpos; lia]. }
        intros [He | [He | He]].
        -- apply Hmono, Hc. left. by apply Hsub.
        -- apply elem_of_app in He as [He | He].
           ++ apply Hmono, Hc. right. by left.
           ++ apply (proj1 (Forall_forall _ _) Hl) in He as [(Hd & _) _].
              right. rewrite Hd. split; [lia |]. exists url.
              replace (depth + 1 - 1) with depth by lia. left.
        -- apply elem_of_cons in He as [-> | He].
           ++ apply Hmono, Hc. left. rewrite Hbatch. left.
           ++ apply Hmono, Hc. right. by right.
    + intros [He | [He | He]]; apply Hc; [| |by right; right].
      * right. left. rewrite <- Hcut. apply elem_of_app. by left.
      * right. left. rewrite <- Hcut. apply elem_of_app. by right.
  - simpl. rewrite Ht. simpl. intros e [He | [He | He]].
    + by apply elem_of_nil in He.
    + apply list_elem_of_singleton in He. by left.
    + by apply elem_of_nil in He.
Qed.

Lemma depth_counts_links_from_seed_witness :
  let s := Demo.fresh 10000 20 in
  let c := crawl_steps Demo.site 12 (start_scraping s) in
  trace s = [] ∧ (Demo.page "down", 1) ∈ fetched (trace (self c))
  ∧ ((Demo.page "down", 1) = (base_url s, 0)
     ∨ (0 < 1 ∧ ∃ p, (p, 1 - 1) ∈ fetched (trace (self c)))).
Proof.
  assert ((Demo.page "down", 1)
          ∈ fetched (trace (self (crawl_steps Demo.site 12
                                    (start_scraping (Demo.fresh 10000 20))))))
    as Hin.
  { apply (bool_decide_eq_true_1 (_ ∈ _)). vm_compute. reflexivity. }
  split; [reflexivity |]. split; [exact Hin |].
  apply (depth_counts_links_from_seed Demo.site (Demo.fresh 10000 20) 12
           (Demo.page "down", 1) eq_refl).
  right. right. exact Hin.
Defined.

(** ** Nothing is forgotten during a crawl *)

Section Growth.
Context (w : World).

Lemma scrape_page_grows (x s : scraper) (url : string) (depth : Z) (f : bool) :
  let J := λ y : scraper,
    visited_urls x ⊆ visited_urls y
    ∧ current_depth x ≤ current_depth y
    ∧ deadlinks x `prefix_of` deadlinks y
    ∧ results_csv x `prefix_of` results_csv y
    ∧ trace x `suffix_of` trace y
    ∧ (tick x ≤ tick y)%nat in
  J s → J (scrape_page w s url depth f).1.
Proof.
  intros J. apply (scrape_page_keeps w J). intros _ _.
  split; [split |..]; unfold J; simpl.
  - intros y u (Hv & Hc & Hd & Hr & Ht & Hk).
    repeat (split; [done |]). split; [by apply suffix_cons_r | lia].
  - intros y u (Hv & Hc & Hd & Hr & Ht & Hk) _.
    split; [done |]. split; [done |].
    split; [by apply prefix_app_r |]. split; [by apply prefix_app_r |].
    split; [by do 2 apply suffix_cons_r | lia].
  - intros y (Hv & Hc & Hd & Hr & Ht & Hk).
    split; [by apply union_subseteq_r' |]. split; [lia | done].
  - intros y (Hv & Hc & Hd & Hr & Ht & Hk).
    repeat (split; [done |]). lia.
  - intros y (Hv & Hc & Hd & Hr & Ht & Hk).
    repeat (split; [done |]). split; [by apply suffix_cons_r | lia].
  - intros y (Hv & Hc & Hd & Hr & Ht & Hk).
    repeat (split; [done |]). split; [by apply suffix_cons_r | lia].
Qed.

Lemma crawl_steps_grows (c : crawl) (k : nat) :
  let y := self (crawl_steps w k c) in
  visited_urls (self c) ⊆ visited_urls y
  ∧ current_depth (self c) ≤ current_depth y
  ∧ deadlinks (self c) `prefix_of` deadlinks y
  ∧ results_csv (self c) `prefix_of` results_csv y
  ∧ trace (self c) `suffix_of` trace y
  ∧ (tick (self c) ≤ tick y)%nat.
Proof.
  apply (crawl_steps_invariant w
           (λ c', visited_urls (self c) ⊆ visited_urls (self c')
                  ∧ current_depth (self c) ≤ current_depth (self c')
                  ∧ deadlinks (self c) `prefix_of` deadlinks (self c')
                  ∧ results_csv (self c) `prefix_of` results_csv (self c')
                  ∧ trace (self c) `suffix_of` trace (self c')
                  ∧ (tick (self c) ≤ tick (self c'))%nat)); [|done].
  intros c1 c2 H1 Hstep.
  apply crawl_step_inv in Hstep as [(e & rest & _ & ->) | (_ & _ & _ & ->)];
    simpl; [|done].
  by apply scrape_page_grows.
Qed.
End Growth.

(** X5.  A crawl never forgets: from any point to any later point the
    visited set only gains URLs, the dead links in memory and the rows of
    the results file are only appended to, and the effects already made
    stay as they are. *)
Theorem crawl_only_adds (w : World) (s : scraper) (n m : nat) :
  (n ≤ m)%nat →
  let c1 := crawl_steps w n (start_scraping s) in
  let c2 := crawl_steps w m (start_scraping s) in
  visited_urls (self c1) ⊆ visited_urls (self c2)
  ∧ deadlinks (self c1) `prefix_of` deadlinks (self c2)
  ∧ results_csv (self c1) `prefix_of` results_csv (self c2)
  ∧ trace (self c1) `suffix_of` trace (self c2).
Proof.
  intros Hnm c1 c2. unfold c2.
  replace m with (n + (m - n))%nat by lia. rewrite crawl_steps_add. fold c1.
  destruct (crawl_steps_grows w c1 (m - n)) as (? & _ & ? & ? & ? & _).
  done.
Qed.

Lemma crawl_only_adds_witness :
  let c1 := crawl_steps Demo.site 2 (start_scraping (Demo.fresh 10000 20)) in
  let c2 := crawl_steps Demo.site 12 (start_scraping (Demo.fresh 10000 20)) in
  (2 ≤ 12)%nat ∧ visited_urls (self c1) ⊆ visited_urls (self c2).
Proof.
  split; [lia |].
  apply (crawl_only_adds Demo.site (Demo.fresh 10000 20) 2 12). lia.
Defined.

(** X6.  The depth reported as reached stays within the ceiling: when it
    starts between 0 and [max_depth], it is between 0 and [max_depth] at
    every point of the crawl, and so is the "Max Depth" of the status
    line. *)
Theorem current_depth_within_ceiling (w : World) (s : scraper) (n : nat)
    (message : string) :
  0 ≤ current_depth s ≤ max_depth s →
  let c := crawl_steps w n (start_scraping s) in
  0 ≤ current_depth (self c) ≤ max_depth s
  ∧ 0 ≤ max_depth_reached (update_progress (self c) message) ≤ max_depth s.
Proof.
  intros Hc0 c.
  assert (max_depth (self c) = max_depth s
          ∧ 0 ≤ current_depth (self c) ≤ max_depth s) as (_ & ?); [|done].
  apply (crawl_steps_invariant w
           (λ c, max_depth (self c) = max_depth s
                 ∧ 0 ≤ current_depth (self c) ≤ max_depth s)); [|done].
  clear c. intros c c' (Hm & Hb) Hstep.
  destruct (crawl_step_cases w c c' Hstep)
    as (_ & Hm' & [(e & _ & -> & _)
                  | [(url & depth & _ & _ & Hd & _ & Hcur & _)
                    | (_ & -> & _)]]); try done.
  rewrite Hm', Hcur. split; [done | lia].
Qed.

Lemma current_depth_within_ceiling_witness :
  let s := Demo.fresh 10000 20 in
  let c := crawl_steps Demo.site 12 (start_scraping s) in
  0 ≤ current_depth s ≤ max_depth s
  ∧ 0 ≤ current_depth (self c) ≤ max_depth s.
Proof.
  assert (0 ≤ current_depth (Demo.fresh 10000 20)
          ≤ max_depth (Demo.fresh 10000 20)) as H0 by (simpl; lia).
  split; [exact H0 |].
  apply (current_depth_within_ceiling Demo.site (Demo.fresh 10000 20) 12
           "Scraping completed." H0).
Defined.

(** ** The history as a table keyed by URL *)

Section HistoryTable.
Context (w : World).

Lemma last_scanned_updated_other (url u : string) (now : Z)
    (df : list history_row) :
  u ≠ url →
  last_scanned u
    (map (λ r : history_row,
            if String.eqb r.1 url then (r.1, now) else r) df)
  = last_scanned u df.
Proof.
  intros Hne. unfold last_scanned.
  induction df as [|[u0 t0] df IH]; simpl; [done |].
  destruct (String.eqb_spec u0 url) as [-> | Hu0]; simpl.
  - destruct (String.eqb_spec url u) as [<- | _]; [done | exact IH].
  - destruct (String.eqb u0 u); [done | exact IH].
Qed.

Lemma last_scanned_appended_other (url u : string) (now : Z)
    (df : list history_row) :
  u ≠ url → last_scanned u (df ++ [(url, now)]) = last_scanned u df.
Proof.
  intros Hne. unfold last_scanned.
  induction df as [|[u0 t0] df IH]; simpl.
  - by destruct (String.eqb_spec url u) as [<- | _].
  - destruct (String.eqb u0 u); [done | exact IH].
Qed.

Lemma update_history_other (x : scraper) (url u : string) :
  u ≠ url →
  last_scanned u (history_df (update_history w x url))
  = last_scanned u (history_df x).
Proof.
  intros Hne. unfold update_history. simpl.
  destruct (in_history url (history_df x)).
  - by apply last_scanned_updated_other.
  - by apply last_scanned_appended_other.
Qed.

Lemma update_history_urls (x : scraper) (url : string) :
  (history_df (update_history w x url)).*1
  = if in_history url (history_df x)
    then (history_df x).*1 else (history_df x).*1 ++ [url].
Proof.
  unfold update_history. simpl.
  destruct (in_history url (history_df x)).
  - induction (history_df x) as [|[u0 t0] df IH]; [done |].
    cbn [map]. rewrite !fmap_cons, IH. cbn [fst].
    by destruct (String.eqb u0 url).
  - by rewrite fmap_app.
Qed.

Lemma in_history_urls (url : string) (df : list history_row) :
  in_history url df = true ↔ url ∈ df.*1.
Proof.
  rewrite in_history_spec, list_elem_of_fmap. split.
  - intros [t Ht]. by exists (url, t).
  - intros ([u t] & -> & Hin). by exists t.
Qed.

Lemma update_history_NoDup (x : scraper) (url : string) :
  NoDup (history_df x).*1 → NoDup (history_df (update_history w x url)).*1.
Proof.
  intros Hnd. rewrite update_history_urls.
  destruct (in_history url (history_df x)) eqn:Hin; [done |].
  apply NoDup_app. split; [done |]. split; [|apply NoDup_singleton].
  intros u Hu Hu'. apply list_elem_of_singleton in Hu' as ->.
  apply in_history_urls in Hu. congruence.
Qed.
End HistoryTable.

(** X7.  [update_history] is an upsert keyed by URL: afterwards the page
    has the time of the call, every other URL has the time it had, a row is
    added only when the page had none, a URL column without duplicates
    stays without duplicates, and the file holds the new table. *)
Theorem update_history_is_an_upsert (w : World) (x : scraper) (url u : string) :
  let x' := update_history w x url in
  last_scanned u (history_df x')
  = (if String.eqb u url then Some (clock w (tick x))
     else last_scanned u (history_df x))
  ∧ length (history_df x')
    = (length (history_df x)
       + if in_history url (history_df x) then 0 else 1)%nat
  ∧ (NoDup (history_df x).*1 → NoDup (history_df x').*1)
  ∧ history_csv x' = history_df x'.
Proof.
  intros x'. split; [|split; [|split]].
  - destruct (String.eqb_spec u url) as [-> | Hne].
    + apply update_history_last_scanned.
    + by apply update_history_other.
  - assert (∀ df : list history_row, length df = length df.*1) as Hlen
      by (intros df; symmetry; apply length_fmap).
    rewrite (Hlen (history_df x')), (Hlen (history_df x)).
    unfold x'. rewrite update_history_urls.
    destruct (in_history url (history_df x)); [lia |].
    rewrite length_app. simpl. lia.
  - apply update_history_NoDup.
  - done.
Qed.

Lemma update_history_is_an_upsert_witness :
  let x := Demo.scanned_before Demo.home 5 in
  NoDup (history_df x).*1
  ∧ NoDup (history_df (update_history Demo.site x (Demo.page "p1"))).*1.
Proof.
  assert (NoDup (history_df (Demo.scanned_before Demo.home 5)).*1) as Hnd
    by (simpl; apply NoDup_singleton).
  split; [exact Hnd |].
  exact (proj1 (proj2 (proj2 (update_history_is_an_upsert Demo.site
                                (Demo.scanned_before Demo.home 5)
                                (Demo.page "p1") Demo.home))) Hnd).
Defined.

Section HistoryCrawl.
Context (w : World) (s : scraper).

Lemma history_table_kept_by_updates (url : string) (depth : Z) :
  kept_by_updates w
    (λ x, NoDup (history_df x).*1
          ∧ (∀ u, u ∈ (history_df s).*1 → u ∈ (history_df x).*1)
          ∧ ∀ u, count_updates u (trace x) = 0%nat →
                 last_scanned u (history_df x) = last_scanned u (history_df s))
    url depth.
Proof.
  split; [split |..]; try done.
  intros x (Hnd & Hsub & Hold).
  split; [by apply update_history_NoDup |]. split.
  - intros u Hu. rewrite update_history_urls.
    destruct (in_history url (history_df x)); [by apply Hsub |].
    apply elem_of_app. left. by apply Hsub.
  - intros u Hu. simpl in Hu.
    destruct (String.eqb_spec url u) as [-> | Hne]; [simpl in Hu; lia |].
    rewrite update_history_other by done. by apply Hold.
Qed.
End HistoryCrawl.

(** X8.  During a crawl the history keeps one row per URL, no URL that
    was in it at the start is removed, and a URL for which [update_history]
    did not run keeps the time it had when the crawl started. *)
Theorem history_table_kept (w : World) (s : scraper) (n : nat) :
  NoDup (history_df s).*1 → trace s = [] →
  let c := crawl_steps w n (start_scraping s) in
  NoDup (history_df (self c)).*1
  ∧ (∀ u, u ∈ (history_df s).*1 → u ∈ (history_df (self c)).*1)
  ∧ ∀ u, count_updates u (trace (self c)) = 0%nat →
         last_scanned u (history_df (self c)) = last_scanned u (history_df s).
Proof.
  intros Hnd Ht.
  apply (crawl_steps_invariant w
           (λ c, NoDup (history_df (self c)).*1
                 ∧ (∀ u, u ∈ (history_df s).*1 → u ∈ (history_df (self c)).*1)
                 ∧ ∀ u, count_updates u (trace (self c)) = 0%nat →
                        last_scanned u (history_df (self c))
                        = last_scanned u (history_df s))); [|done].
  intros c c' Hc Hstep.
  apply crawl_step_inv in Hstep as [(e & rest & _ & ->) | (_ & _ & _ & ->)];
    simpl; [|done].
  unfold dispatch.
  apply (scrape_page_keeps w
           (λ x, NoDup (history_df x).*1
                 ∧ (∀ u, u ∈ (history_df s).*1 → u ∈ (history_df x).*1)
                 ∧ ∀ u, count_updates u (trace x) = 0%nat →
                        last_scanned u (history_df x)
                        = last_scanned u (history_df s))); [|done].
  intros _ _. apply history_table_kept_by_updates.
Qed.

Lemma history_table_kept_witness :
  let s := Demo.scanned_before (Demo.page "p1") 20 in
  let c := crawl_steps Demo.site 12 (start_scraping s) in
  NoDup (history_df s).*1 ∧ trace s = []
  ∧ NoDup (history_df (self c)).*1.
Proof.
  assert (NoDup (history_df (Demo.scanned_before (Demo.page "p1") 20)).*1)
    as Hnd by (simpl; apply NoDup_singleton).
  split; [exact Hnd |]. split; [reflexivity |].
  apply (history_table_kept Demo.site
           (Demo.scanned_before (Demo.page "p1") 20) 12 Hnd eq_refl).
Defined.

(** ** Pages scanned less than 14 days ago *)

Section Recent.
Context (w : World).


End Recent.





(** ** Calling [start_scraping] on a scraper that has crawled *)

(** X11.  [start_scraping] does not reset the scraper: when the seed is
    already in the visited set, or the page ceiling is already reached, or
    the depth ceiling is negative, the loop ends within two steps without a
    request and leaves the scraper exactly as it was. *)
Theorem start_scraping_again_does_nothing (w : World) (s : scraper) (n : nat) :
  base_url s ∈ visited_urls s
  ∨ max_pages s ≤ Z.of_nat (size (visited_urls s))
  ∨ max_depth s < 0 →
  self (crawl_steps w n (start_scraping s)) = s
  ∧ crawl_step w (crawl_steps w 2 (start_scraping s)) = None.
Proof.
  intros Hdone.
  destruct (Z.ltb_spec (Z.of_nat (size (visited_urls s))) (max_pages s))
    as [Hlt | Hge].
  - assert (crawl_step w (start_scraping s)
            = Some (Crawl s [(base_url s, 0)] [])) as H1.
    { unfold crawl_step, start_scraping. cbn [batch to_visit self].
      by destruct (Z.ltb_spec (Z.of_nat (size (visited_urls s)))
                     (max_pages s)); [|lia]. }
    assert (crawl_step w (Crawl s [(base_url s, 0)] []) = Some (Crawl s [] []))
      as H2.
    { unfold crawl_step, dispatch, scrape_page. cbn [batch to_visit self fst snd].
      destruct Hdone as [Hv | [Hfull | Hd]]; [| lia |].
      - by rewrite (bool_decide_eq_true_2 _ Hv).
      - apply Z.ltb_lt in Hd. rewrite Hd. by rewrite orb_true_r. }
    assert (crawl_step w (Crawl s [] []) = None) as H3 by done.
    split.
    + destruct n as [|[|n]]; cbn [crawl_steps]; rewrite ?H1, ?H2; try done.
      by rewrite (crawl_steps_halted w (Crawl s [] []) n H3).
    + cbn [crawl_steps]. by rewrite H1, H2.
  - assert (crawl_step w (start_scraping s) = None) as H1.
    { unfold crawl_step, start_scraping. cbn [batch to_visit self].
      by destruct (Z.ltb_spec (Z.of_nat (size (visited_urls s)))
                     (max_pages s)); [lia |]. }
    rewrite !(crawl_steps_halted w _ _ H1). done.
Qed.

Lemma start_scraping_again_does_nothing_witness :
  let s := self (crawl_steps Demo.site 12 (start_scraping (Demo.fresh 10000 20))) in
  base_url s ∈ visited_urls s
  ∧ self (crawl_steps Demo.site 5 (start_scraping s)) = s.
Proof.
  assert (base_url (self (crawl_steps Demo.site 12
                            (start_scraping (Demo.fresh 10000 20))))
          ∈ visited_urls (self (crawl_steps Demo.site 12
                                  (start_scraping (Demo.fresh 10000 20)))))
    as Hv.
  { apply (bool_decide_eq_true_1 (_ ∈ _)). vm_compute. reflexivity. }
  split; [exact Hv |].
  apply (start_scraping_again_does_nothing Demo.site _ 5). left. exact Hv.
Defined.

(** ** The base URL *)

Lemma startswith_spec (s prefix : string) :
  startswith s prefix = true ↔ ∃ rest, s = prefix +:+ rest.
Proof.
  revert s. induction prefix as [|c prefix IH]; intros s.
  - split; [by exists s | intros _; by destruct s].
  - destruct s as [|d s]; simpl.
    + split; [done | by intros [rest ?]].
    + rewrite andb_true_iff, Ascii.eqb_eq, IH. split.
      * intros [-> [rest ->]]. by exists rest.
      * intros [rest [= -> ->]]. split; [done | by exists rest].
Qed.

Lemma str_from_app (prefix rest : string) :
  str_from (String.length prefix) (prefix +:+ rest) = rest.
Proof. induction prefix as [|c prefix IH]; simpl; done. Qed.

(** X12.  [format_and_verify_url] returns only a URL that answered 200 to
    one of its two probes: the formatted URL, or, when that one failed and
    begins with [http://], the same URL with [https://] in its place.  It
    exits exactly when the first probe fails and the URL either has another
    scheme or fails the second probe too, and it lets through the
    [ValueError] of [urlparse] and any exception of a probe that is not a
    [RequestException].  The constructor builds a scraper only for such a
    URL and a mounted drive, and exits when the URL was verified and the
    drive cannot be mounted. *)
Theorem base_url_answered_200 (w : World) (p : Prober) (raw : string)
    (mounted : option drive) :
  match format_and_verify_url w p raw with
  | Built u =>
      ∃ url, formatted_url w p raw = Returns url
             ∧ ((u = url ∧ get_status p 0 url = ProbeStatus 200)
                ∨ (probe_fails (get_status p 0 url)
                   ∧ ∃ rest, url = "http://" +:+ rest
                             ∧ u = "https://" +:+ rest
                             ∧ get_status p 1 u = ProbeStatus 200))
  | Exits =>
      ∃ url, formatted_url w p raw = Returns url
             ∧ probe_fails (get_status p 0 url)
             ∧ ∀ rest, url = "http://" +:+ rest →
                       probe_fails (get_status p 1 ("https://" +:+ rest))
  | Propagates =>
      formatted_url w p raw = Raises
      ∨ ∃ url, formatted_url w p raw = Returns url
               ∧ (get_status p 0 url = ProbeOtherException
                  ∨ (probe_fails (get_status p 0 url)
                     ∧ ∃ rest, url = "http://" +:+ rest
                               ∧ get_status p 1 ("https://" +:+ rest)
                                 = ProbeOtherException))
  end
  ∧ (∀ s, new_scraper w p raw mounted = Built s →
          format_and_verify_url w p raw = Built (base_url s)
          ∧ ∃ d, mounted = Some d ∧ s = init (base_url s) d)
  ∧ (∀ u, format_and_verify_url w p raw = Built u → mounted = None →
          new_scraper w p raw mounted = Exits).
Proof.
  split; [|split].
  - unfold format_and_verify_url, check_url_accessibility.
    destruct (formatted_url w p raw) as [url|]; [|by left].
    destruct (get_status p 0 url) as [c0| |] eqn:H0.
    + destruct (Z.eqb_spec c0 200) as [-> | Hc0].
      { exists url. split; [done |]. by left. }
      destruct (startswith url "http://") eqn:Hhttp.
      * apply startswith_spec in Hhttp as [rest Hrest].
        assert (str_from 7 url = rest) as ->
          by (rewrite Hrest; apply (str_from_app "http://")).
        assert (∀ rest', url = "http://" +:+ rest' → rest' = rest) as Hinj.
        { intros rest' Hrest'. rewrite Hrest in Hrest'.
          cbv [String.append] in Hrest'. by injection Hrest'. }
        destruct (get_status p 1 ("https://" +:+ rest)) as [c1| |] eqn:H1.
        -- destruct (Z.eqb_spec c1 200) as [-> | Hc1].
           ++ exists url. split; [done |]. right. rewrite H0.
              split; [done |]. by exists rest.
           ++ exists url. split; [done |]. rewrite H0. split; [done |].
              intros rest' Hrest'. rewrite (Hinj rest' Hrest'). by rewrite H1.
        -- exists url. split; [done |]. rewrite H0. split; [done |].
           intros rest' Hrest'. rewrite (Hinj rest' Hrest'). by rewrite H1.
        -- right. exists url. split; [done |]. right. rewrite H0.
           split; [done |]. by exists rest.
      * exists url. split; [done |]. rewrite H0. split; [done |].
        intros rest Hrest.
        assert (startswith url "http://" = true) as Hyes
          by (apply startswith_spec; by exists rest).
        congruence.
    + destruct (startswith url "http://") eqn:Hhttp.
      * apply startswith_spec in Hhttp as [rest Hrest].
        assert (str_from 7 url = rest) as ->
          by (rewrite Hrest; apply (str_from_app "http://")).
        assert (∀ rest', url = "http://" +:+ rest' → rest' = rest) as Hinj.
        { intros rest' Hrest'. rewrite Hrest in Hrest'.
          cbv [String.append] in Hrest'. by injection Hrest'. }
        destruct (get_status p 1 ("https://" +:+ rest)) as [c1| |] eqn:H1.
        -- destruct (Z.eqb_spec c1 200) as [-> | Hc1].
           ++ exists url. split; [done |]. right. rewrite H0.
              split; [done |]. by exists rest.
           ++ exists url. split; [done |]. rewrite H0. split; [done |].
              intros rest' Hrest'. rewrite (Hinj rest' Hrest'). by rewrite H1.
        -- exists url. split; [done |]. rewrite H0. split; [done |].
           intros rest' Hrest'. rewrite (Hinj rest' Hrest'). by rewrite H1.
        -- right. exists url. split; [done |]. right. rewrite H0.
           split; [done |]. by exists rest.
      * exists url. split; [done |]. rewrite H0. split; [done |].
        intros rest Hrest.
        assert (startswith url "http://" = true) as Hyes
          by (apply startswith_spec; by exists rest).
        congruence.
    + right. exists url. split; [done |]. by left.
  - unfold new_scraper. intros s.
    destruct (format_and_verify_url w p raw) as [u| |]; [|done..].
    destruct mounted as [d|]; [|done].
    intros [= <-]. split; [done |]. by exists d.
  - unfold new_scraper. by intros u -> ->.
Qed.

(** The address typed without a scheme and without [www.] when only the
    https site answers, when nothing answers, and when the drive cannot be
    mounted. *)
Example base_url_of_example_com :
  new_scraper Demo.site Demo.https_only "example.com" (Some Demo.used_drive)
  = Built (init "https://www.example.com" Demo.used_drive)
  ∧ new_scraper Demo.site Demo.unreachable "example.com"
      (Some Demo.used_drive) = Exits
  ∧ new_scraper Demo.site Demo.https_only "example.com" None = Exits.
Proof. repeat split; reflexivity. Qed.

(** ** Every link that is found is handled *)

Section Handled.
Context (w : World).

(** After its dispatch an entry is visited, unless it was too deep. *)
Lemma scrape_page_handles (s : scraper) (url : string) (depth : Z) (f : bool) :
  url ∈ visited_urls (scrape_page w s url depth f).1 ∨ max_depth s < depth.
Proof.
  unfold scrape_page.
  destruct (bool_decide (url ∈ visited_urls s)) eqn:Hv; simpl.
  { left. by apply bool_decide_eq_true in Hv. }
  destruct (Z.ltb_spec (max_depth s) depth) as [Hd | Hd]; [by right |].
  left.
  destruct (rescan_gate_frame w (mark_visited url depth s) url f)
    as (_ & Hvis & _).
  assert (url ∈ visited_urls (mark_visited url depth s)) as Hin
    by (simpl; apply elem_of_union; left; by apply elem_of_singleton).
  destruct (rescan_gate w (mark_visited url depth s) url f) as [s2 [|]];
    simpl in Hvis; simpl; [by rewrite Hvis |].
  destruct (http_get w (tick s2) url) as [hrefs|]; simpl; [|by rewrite Hvis].
  pose proof (process_links_visited w (observe [EvGet url depth] s2) url depth
                hrefs []) as Hv4.
  destruct (process_links w (observe [EvGet url depth] s2) url depth hrefs [])
    as [s4 [links|]]; simpl in *; by rewrite Hv4, Hvis.
Qed.

(** A link that waits in the batch or in the frontier, or that is visited
    or too deep, is so after one more step. *)
Lemma handled_step (link : entry) (c c' : crawl) :
  crawl_step w c = Some c' →
  link ∈ batch c ∨ link ∈ to_visit c
  ∨ link.1 ∈ visited_urls (self c) ∨ max_depth (self c) < link.2 →
  link ∈ batch c' ∨ link ∈ to_visit c'
  ∨ link.1 ∈ visited_urls (self c') ∨ max_depth (self c') < link.2.
Proof.
  intros Hstep H.
  apply crawl_step_inv in Hstep
    as [(e & rest & He & ->) | (Hb & _ & _ & ->)]; simpl.
  - destruct (dispatch_config w (self c) e) as (_ & _ & ->).
    destruct H as [H | [H | [H | H]]].
    + rewrite He in H. apply elem_of_cons in H as [-> | H]; [|by left].
      right. right. unfold dispatch. apply scrape_page_handles.
    + right. left. apply elem_of_app. by left.
    + right. right. left. by apply scrape_page_visited_mono.
    + by do 3 right.
  - destruct H as [H | [H | H]].
    + rewrite Hb in H. by apply elem_of_nil in H.
    + rewrite <- (take_drop 10 (to_visit c)) in H.
      apply elem_of_app in H as [H | H]; [by left | right; by left].
    + by do 2 right.
Qed.
End Handled.

(** X13.  No link that was found is lost: a link that the scan of a page
    returned is, at every later point of the crawl, still waiting in the
    batch or in the frontier, or visited, or deeper than [max_depth].  When
    the crawl ends with an empty frontier every such link is visited or too
    deep. *)
Theorem no_discovered_link_is_lost (w : World) (s : scraper) (k m : nat)
    (e link : entry) (rest : list entry) :
  let ck := crawl_steps w k (start_scraping s) in
  let cm := crawl_steps w m (start_scraping s) in
  batch ck = e :: rest → link ∈ (dispatch w (self ck) e).2 → (k < m)%nat →
  (link ∈ batch cm ∨ link ∈ to_visit cm
   ∨ link.1 ∈ visited_urls (self cm) ∨ max_depth s < link.2)
  ∧ (batch cm = [] → to_visit cm = [] →
     link.1 ∈ visited_urls (self cm) ∨ max_depth s < link.2).
Proof.
  intros ck cm Hbatch Hlink Hkm.
  assert (link ∈ batch cm ∨ link ∈ to_visit cm
          ∨ link.1 ∈ visited_urls (self cm) ∨ max_depth (self cm) < link.2)
    as Hcm.
  { unfold cm. replace m with (k + (1 + (m - k - 1)))%nat by lia.
    rewrite crawl_steps_add. fold ck. rewrite crawl_steps_add.
    apply (crawl_steps_invariant w
             (λ c, link ∈ batch c ∨ link ∈ to_visit c
                   ∨ link.1 ∈ visited_urls (self c)
                   ∨ max_depth (self c) < link.2)).
    - intros c c' Hc Hstep. by apply (handled_step w link c c').
    - simpl. unfold crawl_step. rewrite Hbatch.
      destruct (dispatch w (self ck) e) as [s' links]. simpl in *.
      right. left. apply elem_of_app. by right. }
  destruct (crawl_config w s m) as (_ & _ & Hd). fold cm in Hd.
  rewrite Hd in Hcm. split; [done |].
  intros Hb Hq. rewrite Hb, Hq in Hcm.
  destruct Hcm as [H | [H | H]]; [by apply elem_of_nil in H.. | done].
Qed.

Lemma no_discovered_link_is_lost_witness :
  let s := Demo.fresh 10000 20 in
  let ck := crawl_steps Demo.site 1 (start_scraping s) in
  let cm := crawl_steps Demo.site 12 (start_scraping s) in
  let link := (Demo.page "p3", 1) in
  batch ck = [(Demo.home, 0)]
  ∧ link ∈ (dispatch Demo.site (self ck) (Demo.home, 0)).2
  ∧ (1 < 12)%nat
  ∧ batch cm = [] ∧ to_visit cm = []
  ∧ (link.1 ∈ visited_urls (self cm) ∨ max_depth s < link.2).
Proof.
  assert ((Demo.page "p3", 1)
          ∈ (dispatch Demo.site
               (self (crawl_steps Demo.site 1
                        (start_scraping (Demo.fresh 10000 20))))
               (Demo.home, 0)).2) as Hlink.
  { apply (bool_decide_eq_true_1 (_ ∈ _)). vm_compute. reflexivity. }
  split; [reflexivity |]. split; [exact Hlink |]. split; [lia |].
  split; [vm_compute; reflexivity |]. split; [vm_compute; reflexivity |].
  refine (proj2 (no_discovered_link_is_lost Demo.site (Demo.fresh 10000 20)
                   1 12 (Demo.home, 0) (Demo.page "p3", 1) [] eq_refl Hlink _)
            _ _); [lia | vm_compute; reflexivity | vm_compute; reflexivity].
Defined.

(** ** The anchors of one page *)

Section Anchors.
Context (w : World) (valid : string → bool) (V : gset string).
Hypothesis static : ∀ k u, http_head w k u = http_head w 0 u.

Lemma process_links_exact (url : string) (depth : Z) (hrefs : list string) :
  ∀ s acc,
    (∀ u, is_valid_url w s u = valid u) → visited_urls s = V →
    let r := process_links w s url depth hrefs acc in
    let anchors := List.filter valid (urljoin w url <$> hrefs) in
    (r.2 = Raises ↔
     Exists (λ u, http_head w 0 u = HeadOtherException) anchors)
    ∧ ∀ links, r.2 = Returns links →
        deadlinks r.1
        = deadlinks s ++ (Deadlink url <$> List.filter (head_dead w) anchors)
        ∧ results_csv r.1
          = results_csv s
            ++ (Deadlink url <$> List.filter (head_dead w) anchors)
        ∧ links
          = acc ++ ((λ u, (u, depth + 1))
                    <$> List.filter
                          (λ u, head_alive w u && negb (bool_decide (u ∈ V)))
                          anchors)
        ∧ heads (trace r.1) = rev anchors ++ heads (trace s)
        ∧ tick r.1 = (tick s + length anchors)%nat.
Proof.
  induction hrefs as [|href rest IH]; intros s acc Hvalid Hvis;
    cbn [process_links].
  - cbn -[Z.add]. split; [by rewrite Exists_nil |].
    intros links [= <-]. rewrite !app_nil_r. repeat split; (done || lia).
  - rewrite fmap_cons. cbn [List.filter]. rewrite Hvalid.
    destruct (valid (urljoin w url href)) eqn:Hu; [|by apply IH].
    unfold check_link. rewrite static.
    unfold head_dead, head_alive in *.
    pose proof (IH (observe [EvHead (urljoin w url href)] s)) as IHalive.
    pose proof (IH (save_result (Deadlink url (urljoin w url href))
                      (append_deadlink (Deadlink url (urljoin w url href))
                         (observe [EvHead (urljoin w url href)] s))) acc
                  Hvalid Hvis) as IHdead.
    cbn [List.filter fmap list_fmap rev length].
    destruct (http_head w 0 (urljoin w url href)) as [code| |] eqn:Hhead.
    + destruct (Z.eqb_spec code 200) as [-> | Hcode]; cbn [negb andb].
      * cbn [visited_urls observe]. rewrite Hvis.
        destruct (decide (urljoin w url href ∈ V)) as [Hin | Hnin].
        -- rewrite (bool_decide_eq_true_2 _ Hin). cbn [negb].
           destruct (IHalive acc Hvalid Hvis) as [Hraise Hret]. split.
           ++ rewrite Hraise, Exists_cons. split; [by right |].
              intros [? | ?]; [congruence | done].
           ++ intros links Hl.
              destruct (Hret links Hl) as (Hd & Hr & Hlinks & Hh & Ht).
              cbn in Hd, Hr, Hh, Ht. rewrite Hd, Hr, Hh, Ht.
              repeat split; first [done | by rewrite <- app_assoc | lia].
        -- rewrite (bool_decide_eq_false_2 _ Hnin). cbn [negb].
           destruct (IHalive (acc ++ [(urljoin w url href, depth + 1)])
                       Hvalid Hvis) as [Hraise Hret]. split.
           ++ rewrite Hraise, Exists_cons. split; [by right |].
              intros [? | ?]; [congruence | done].
           ++ intros links Hl.
              destruct (Hret links Hl) as (Hd & Hr & Hlinks & Hh & Ht).
              cbn in Hd, Hr, Hh, Ht. rewrite Hd, Hr, Hh, Ht, Hlinks.
              repeat split; first [done | by rewrite <- app_assoc | lia].
      * destruct IHdead as [Hraise Hret]. split.
        -- rewrite Hraise, Exists_cons. split; [by right |].
           intros [? | ?]; [congruence | done].
        -- intros links Hl.
           destruct (Hret links Hl) as (Hd & Hr & Hlinks & Hh & Ht).
           cbn in Hd, Hr, Hh, Ht. rewrite Hd, Hr, Hh, Ht.
           repeat split; first [done | by rewrite <- app_assoc | lia].
    + destruct IHdead as [Hraise Hret]. split.
      * rewrite Hraise, Exists_cons. split; [by right |].
        intros [? | ?]; [congruence | done].
      * intros links Hl.
        destruct (Hret links Hl) as (Hd & Hr & Hlinks & Hh & Ht).
        cbn in Hd, Hr, Hh, Ht. rewrite Hd, Hr, Hh, Ht.
        repeat split; first [done | by rewrite <- app_assoc | lia].
    + cbn. split; [|done]. split; [intros _ | done].
      apply Exists_cons. by left.
Qed.
End Anchors.

(** X14.  On a site whose answers to HEAD requests do not change, the
    loop over the anchors of a page, when it ends without an exception, has
    made one HEAD request for each anchor in scope, in document order; it
    has appended to [deadlinks] and to the results file, in that order, one
    record for each occurrence of a dead anchor, and it returns, in that
    order, one entry of depth [depth + 1] for each occurrence of an anchor
    that is alive and not visited.  Nothing is deduplicated. *)
Theorem page_links_in_anchor_order (w : World) (url : string) (depth : Z)
    (hrefs : list string) (s : scraper) (acc links : list entry) :
  (∀ k u, http_head w k u = http_head w 0 u) →
  let r := process_links w s url depth hrefs acc in
  let anchors := List.filter (is_valid_url w s) (urljoin w url <$> hrefs) in
  r.2 = Returns links →
  deadlinks r.1
  = deadlinks s ++ (Deadlink url <$> List.filter (head_dead w) anchors)
  ∧ results_csv r.1
    = results_csv s ++ (Deadlink url <$> List.filter (head_dead w) anchors)
  ∧ links
    = acc ++ ((λ u, (u, depth + 1))
              <$> List.filter
                    (λ u, head_alive w u
                          && negb (bool_decide (u ∈ visited_urls s)))
                    anchors)
  ∧ heads (trace r.1) = rev anchors ++ heads (trace s)
  ∧ tick r.1 = (tick s + length anchors)%nat.
Proof.
  intros Hstatic r anchors Hret.
  by apply (process_links_exact w (is_valid_url w s) (visited_urls s) Hstatic
              url depth hrefs s acc).
Qed.

Lemma page_links_in_anchor_order_witness :
  let s := Demo.fresh 10000 20 in
  let hrefs := [Demo.page "missing"; Demo.page "p1"; Demo.external;
                Demo.page "missing"; Demo.page "p1"] in
  let r := process_links Demo.site s Demo.home 0 hrefs [] in
  (∀ k u, http_head Demo.site k u = http_head Demo.site 0 u)
  ∧ r.2 = Returns [(Demo.page "p1", 1); (Demo.page "p1", 1)]
  ∧ deadlinks r.1 = [Deadlink Demo.home (Demo.page "missing");
                     Deadlink Demo.home (Demo.page "missing")].
Proof.
  assert (∀ k u, http_head Demo.site k u = http_head Demo.site 0 u) as Hstatic
    by reflexivity.
  split; [exact Hstatic |]. split; [vm_compute; reflexivity |].
  destruct (page_links_in_anchor_order Demo.site Demo.home 0
              [Demo.page "missing"; Demo.page "p1"; Demo.external;
               Demo.page "missing"; Demo.page "p1"]
              (Demo.fresh 10000 20) []
              [(Demo.page "p1", 1); (Demo.page "p1", 1)] Hstatic)
    as (Hdead & _); [vm_compute; reflexivity |].
  rewrite Hdead. vm_compute. reflexivity.
Defined.
